(** * Completion-record stream compiler of res2df (ecl2df.compdat)

    A shallow embedding of the stateful record-stream compiler behind
    [compdat.deck2dfs] and of its inverse [compdat.df2ecl]: the date clock
    (DATES / TSTEP), the well registry filled by WELSPECS, default
    resolution of the I and J fields of COMPDAT, range expansion (K1..K2,
    SEGMENT1..SEGMENT2), the completion store with WELOPEN status
    propagation, table assembly and re-serialisation.

    The module [ecl2df/compdat.py] is not part of the sources at hand (only
    its tests and its command line caller are); the definitions marked
    "Modelled from the spec" follow the specification of that module, and
    the repository tests where the specification is silent. The command
    line front end [ecl2df/ecl2csv.py] is embedded from its source at the
    end of the file. *)

From Stdlib Require Import ZArith QArith Qcanon List String Ascii Bool Lia Sorting.Sorted.
From stdpp Require Import gmap strings.
Import ListNotations.

Open Scope Z_scope.

(* ------------------------------------------------------------------ *)
(** ** Calendar dates *)

Definition is_leap (y : Z) : bool :=
  ((y mod 4 =? 0) && negb (y mod 100 =? 0)) || (y mod 400 =? 0).

Definition days_in_month (y : Z) (m : nat) : Z :=
  match m with
  | 1%nat | 3%nat | 5%nat | 7%nat | 8%nat | 10%nat | 12%nat => 31
  | 2%nat => if is_leap y then 29 else 28
  | _ => 30
  end.

Fixpoint days_before_month (y : Z) (m : nat) : Z :=
  match m with
  | O | 1%nat => 0
  | S m' => days_before_month y m' + days_in_month y m'
  end.

Definition days_before_year (y : Z) : Z :=
  let y' := y - 1 in y' * 365 + y' / 4 - y' / 100 + y' / 400.

(** [datetime.date(y, m, d).toordinal()] *)
Definition toordinal (y : Z) (m : nat) (d : Z) : Z :=
  days_before_year y + days_before_month y m + d.

(** Modelled from the spec (3, 4.1): a [SimDate] is a point of time
    counted in days, exactly: the proleptic Gregorian day number of
    [toordinal] plus the time of day (to the second, as in
    [DATES 1 'JAN' 2001 03:03:03]) as a fraction of a day. TSTEP day
    counts, fractional ones included, are added to it. Canonical
    rationals make equal instants equal. *)
Definition SimDate := Qc.

(** A day count, whole or fractional. *)
Definition ndays (n : Z) : Qc := Q2Qc (inject_Z n).

Definition qdays (n : Z) (d : positive) : Qc := Q2Qc (n # d).

(** Midnight of a calendar day. *)
Definition date_of (y : Z) (m : nat) (d : Z) : SimDate := ndays (toordinal y m d).

(** A calendar day and a time of day. *)
Definition datetime_of (y : Z) (m : nat) (d hh mm ss : Z) : SimDate :=
  Q2Qc (Qplus (inject_Z (toordinal y m d)) (Qmake (hh * 3600 + mm * 60 + ss) 86400)).

Definition Qclt_bool (a b : Qc) : bool := bool_decide (a < b)%Qc.

(* ------------------------------------------------------------------ *)
(** ** Deck records (as yielded by the external deck parser) *)

(** An integer item of a record: the wildcard [1*] or a literal. *)
Inductive Field :=
| Defaulted
| Lit (z : Z).

(** The integer the parser hands over for the item ([1*] reads as 0). *)
Definition literal (f : Field) : Z :=
  match f with Defaulted => 0 | Lit z => z end.

(** Modelled from the spec: "A field value is defaulted when it equals a
    wildcard sentinel or the integer zero." *)
Definition is_defaulted (f : Field) : bool :=
  match f with Defaulted => true | Lit z => z =? 0 end.

(** One line of a COMPDAT keyword; [cd_rest] holds the remaining items
    (SATN, TRAN, DIAM, KH, SKIN, DFACT, DIR, ...), copied untouched. *)
Record CompdatRecord := {
  cd_well : string;
  cd_i : Field;
  cd_j : Field;
  cd_k1 : Z;
  cd_k2 : Z;
  cd_status : string;
  cd_rest : list (string * string)
}.

(** The record kinds of the stream. A keyword with several lines is
    several consecutive records. *)
Inductive DeckRecord :=
| DATES (d : SimDate)
| TSTEP (steps : list Qc)
| WELSPECS (well : string) (head_i head_j : Z)
| COMPDAT (c : CompdatRecord)
| WELOPEN (pattern : string) (status : string).

#[global] Instance Field_eq_dec : EqDecision Field.
Proof. solve_decision. Defined.
#[global] Instance CompdatRecord_eq_dec : EqDecision CompdatRecord.
Proof. solve_decision. Defined.
#[global] Instance DeckRecord_eq_dec : EqDecision DeckRecord.
Proof. solve_decision. Defined.

Definition is_time_control (r : DeckRecord) : bool :=
  match r with DATES _ | TSTEP _ => true | _ => false end.

(* ------------------------------------------------------------------ *)
(** ** Rows of the COMPDAT and WELSEGS tables *)

(** A row of the COMPDAT table: columns WELL, I, J, K1, K2, OP/SH, the
    other COMPDAT columns, and DATE ([None] is the undated marker). *)
Record CompletionRow := {
  WELL : string;
  I_ : Z;
  J_ : Z;
  K1 : Z;
  K2 : Z;
  OP_SH : string;
  REST : list (string * string);
  DATE : option SimDate
}.

(** Rows compare field by field; dates compare as canonical rationals. *)
#[global] Instance CompletionRow_eq_dec : EqDecision CompletionRow.
Proof. solve_decision. Defined.

(** A row of the WELSEGS table: the segment range SEGMENT1..SEGMENT2 and
    the other WELSEGS columns. *)
Record SegmentRow := {
  SEG_WELL : string;
  SEGMENT1 : Z;
  SEGMENT2 : Z;
  BRANCH : Z;
  JOIN_SEGMENT : Z;
  SEG_REST : list (string * string);
  SEG_DATE : option SimDate
}.

(* ------------------------------------------------------------------ *)
(** ** Range expander *)

(** A record whose schema designates a closed integer interval. *)
Class RangeRecord (R : Type) := {
  range_lo : R -> Z;
  range_hi : R -> Z;
  set_range : Z -> R -> R
}.

#[global] Instance compdat_range : RangeRecord CompletionRow := {
  range_lo := K1;
  range_hi := K2;
  set_range k r :=
    {| WELL := WELL r; I_ := I_ r; J_ := J_ r; K1 := k; K2 := k;
       OP_SH := OP_SH r; REST := REST r; DATE := DATE r |}
}.

#[global] Instance welsegs_range : RangeRecord SegmentRow := {
  range_lo := SEGMENT1;
  range_hi := SEGMENT2;
  set_range k s :=
    {| SEG_WELL := SEG_WELL s; SEGMENT1 := k; SEGMENT2 := k;
       BRANCH := BRANCH s; JOIN_SEGMENT := JOIN_SEGMENT s;
       SEG_REST := SEG_REST s; SEG_DATE := SEG_DATE s |}
}.

(** [zrange a n = [a; a+1; ...; a+n-1]] *)
Fixpoint zrange (a : Z) (n : nat) : list Z :=
  match n with
  | O => []
  | S n' => a :: zrange (a + 1) n'
  end.

Definition malformed_range_warning : string := "MalformedRangeWarning".

(** Modelled from the spec (4.3): one record per integer of the interval,
    in ascending order; an inverted interval is normalised and reported
    as a recoverable warning. Returns the rows and the warnings logged. *)
Definition expand {R} `{RangeRecord R} (r : R) : list R * list string :=
  let a := range_lo r in
  let b := range_hi r in
  let lo := Z.min a b in
  let hi := Z.max a b in
  (map (fun k => set_range k r) (zrange lo (Z.to_nat (hi - lo + 1))),
   if b <? a then [malformed_range_warning] else []).

(* ------------------------------------------------------------------ *)
(** ** Conversion state *)

(** The options of [deck2dfs]: [unroll] and [start_date]. *)
Record Config := {
  unroll_ranges : bool;
  start_date : option SimDate
}.

Definition default_config : Config :=
  {| unroll_ranges := true; start_date := None |}.

(** Range expansion when enabled, else the record as a single row. *)
Definition unroll {R} `{RangeRecord R} (cfg : Config) (r : R) : list R :=
  if unroll_ranges cfg then fst (expand r) else [r].

(** The context threaded through the stream: the date clock ([None] is
    undated), the well registry (the [welspecs] dict: well name to the
    head location I, J of its latest WELSPECS) and the append-only
    completion store. *)
Record State := {
  clock : option SimDate;
  welspecs : gmap string (Z * Z);
  store : list CompletionRow
}.

Definition init_state : State :=
  {| clock := None; welspecs := ∅; store := [] |}.

Definition set_clock (s : State) (d : option SimDate) : State :=
  {| clock := d; welspecs := welspecs s; store := store s |}.

Definition set_welspecs (s : State) (m : gmap string (Z * Z)) : State :=
  {| clock := clock s; welspecs := m; store := store s |}.

Definition set_store (s : State) (l : list CompletionRow) : State :=
  {| clock := clock s; welspecs := welspecs s; store := l |}.

(** The fatal errors, with the well or pattern and the stream position
    (index of the record) at fault. *)
Inductive ConvError :=
| MissingDefaultError (well : string) (field : string) (pos : nat)
| UnknownWellError (pattern : string) (pos : nat)
| DateOrderError (pos : nat).

(** Result of a processing step: go on, abort with a fatal error, or give
    up with a critical log message (the caller then gets no tables). *)
Inductive Outcome :=
| Continue (s : State)
| Abort (e : ConvError)
| Abandon (msg : string).

(* ------------------------------------------------------------------ *)
(** ** Well registry: default resolution *)

(** Modelled from the spec (4.2): a defaulted field takes the value
    stored for the well, a literal field is kept; no entry for the well
    is a [MissingDefaultError] naming the field. *)
Definition resolve_field (pos : nat) (reg : gmap string (Z * Z)) (w : string)
    (name : string) (pick : Z * Z -> Z) (f : Field) : ConvError + Z :=
  if is_defaulted f then
    match reg !! w with
    | Some loc => inr (pick loc)
    | None => inl (MissingDefaultError w name pos)
    end
  else inr (literal f).

(** Modelled from the spec (4.2): [resolve(well, i, j)], I checked
    before J. *)
Definition resolve (pos : nat) (reg : gmap string (Z * Z)) (w : string)
    (fi fj : Field) : ConvError + (Z * Z) :=
  match resolve_field pos reg w "I" fst fi with
  | inl e => inl e
  | inr i =>
      match resolve_field pos reg w "J" snd fj with
      | inl e => inl e
      | inr j => inr (i, j)
      end
  end.

Definition compdat_row (c : CompdatRecord) (i j : Z) (d : option SimDate)
    : CompletionRow :=
  {| WELL := cd_well c; I_ := i; J_ := j; K1 := cd_k1 c; K2 := cd_k2 c;
     OP_SH := cd_status c; REST := cd_rest c; DATE := d |}.

(* ------------------------------------------------------------------ *)
(** ** Completion store and status propagation *)

(** Keep, for every key, only its last occurrence (in place). *)
Fixpoint dedup_last {A K} `{EqDecision K} (key : A -> K) (l : list A) : list A :=
  match l with
  | [] => []
  | x :: xs =>
      if existsb (fun y => bool_decide (key y = key x)) xs
      then dedup_last key xs
      else x :: dedup_last key xs
  end.

(** Connection identity of a row within its well. *)
Definition conn_id (r : CompletionRow) : Z * Z * Z * Z :=
  (I_ r, J_ r, K1 r, K2 r).

(** Modelled from the spec (4.4): the live rows of a well, the most recent
    row of each of its connection identities. *)
Definition live_rows (w : string) (st : list CompletionRow) : list CompletionRow :=
  dedup_last conn_id (List.filter (fun r => String.eqb (WELL r) w) st).

(** First-seen order, without repetitions. *)
Fixpoint uniq_first {A} `{EqDecision A} (seen : list A) (l : list A) : list A :=
  match l with
  | [] => []
  | x :: xs =>
      if bool_decide (x ∈ seen) then uniq_first seen xs
      else x :: uniq_first (x :: seen) xs
  end.

(** Well name patterns: [*] matches any string, [?] any character. *)
Fixpoint glob (p s : string) {struct p} : bool :=
  match p with
  | EmptyString => match s with EmptyString => true | _ => false end
  | String c p' =>
      if Ascii.eqb c "*"%char then
        (fix star (s : string) : bool :=
           glob p' s || match s with EmptyString => false | String _ s' => star s' end) s
      else
        match s with
        | EmptyString => false
        | String c' s' => (Ascii.eqb c "?"%char || Ascii.eqb c c') && glob p' s'
        end
  end.

Fixpoint has_wildcard (p : string) : bool :=
  match p with
  | EmptyString => false
  | String c p' => Ascii.eqb c "*"%char || Ascii.eqb c "?"%char || has_wildcard p'
  end.

(** Modelled from the spec (4.5, step 1): exact match, or pattern match
    when the pattern has a wildcard. *)
Definition well_matches (pat w : string) : bool :=
  if has_wildcard pat then glob pat w else String.eqb pat w.

(** The well names known to the conversion: those with completion rows
    and those declared by WELSPECS. *)
Definition known_wells (s : State) : list string :=
  uniq_first [] (map WELL (store s) ++ map fst (map_to_list (welspecs s))).

Definition matched_wells (s : State) (pat : string) : list string :=
  List.filter (well_matches pat) (known_wells s).

(** The copy of a live row made by a status change. *)
Definition reopen (st : string) (d : option SimDate) (r : CompletionRow)
    : CompletionRow :=
  {| WELL := WELL r; I_ := I_ r; J_ := J_ r; K1 := K1 r; K2 := K2 r;
     OP_SH := st; REST := REST r; DATE := d |}.

(** Modelled from the spec (8) and test_applywelopen_stringdeck, which
    count two distinct statuses for a stream whose WELOPEN records set
    SHUT, OPEN and POPN: the connection status a WELOPEN state gives. POPN
    (open, prioritised) opens the connections; the spec names no other
    translation, so any other state is set as written. *)
Definition welopen_connection_state (st : string) : string :=
  if String.eqb st "POPN" then "OPEN" else st.

(** Modelled from the spec (4.5): [apply_status_change(well_pattern,
    new_status, current_date)]. *)
Definition apply_status_change (pos : nat) (s : State) (pat st : string) : Outcome :=
  let ws := matched_wells s pat in
  if match ws with [] => true | _ => false end
     || existsb (fun w => match live_rows w (store s) with [] => true | _ => false end) ws
  then Abort (UnknownWellError pat pos)
  else Continue (set_store s (store s ++
         flat_map (fun w => map (reopen (welopen_connection_state st) (clock s))
                                (live_rows w (store s))) ws)).

(* ------------------------------------------------------------------ *)
(** ** The record-stream compiler *)

Definition tstep_critical_msg : string :=
  "Can't use TSTEP when there is no start_date".

Definition sum_list (l : list Qc) : Qc := fold_right Qcplus (ndays 0) l.

(** Modelled from the spec (2, 4.1 to 4.5, 7): one transition per record
    kind. A TSTEP read while the clock is undated gives up the
    conversion (modelled after test_tstep, where [deck2dfs] returns an
    empty dict and logs a critical error). *)
Definition step (cfg : Config) (pos : nat) (s : State) (r : DeckRecord) : Outcome :=
  match r with
  | DATES d =>
      match clock s with
      | Some c => if Qclt_bool d c then Abort (DateOrderError pos)
                  else Continue (set_clock s (Some d))
      | None => Continue (set_clock s (Some d))
      end
  | TSTEP steps =>
      match clock s with
      | None => Abandon tstep_critical_msg
      | Some c =>
          let days := sum_list steps in
          if Qclt_bool days (ndays 0) then Abort (DateOrderError pos)
          else Continue (set_clock s (Some (c + days)%Qc))
      end
  | WELSPECS w hi hj => Continue (set_welspecs s (<[w := (hi, hj)]> (welspecs s)))
  | COMPDAT c =>
      match resolve pos (welspecs s) (cd_well c) (cd_i c) (cd_j c) with
      | inl e => Abort e
      | inr (i, j) =>
          Continue (set_store s (store s ++ unroll cfg (compdat_row c i j (clock s))))
      end
  | WELOPEN pat st => apply_status_change pos s pat st
  end.

Fixpoint run (cfg : Config) (pos : nat) (s : State) (rs : list DeckRecord) : Outcome :=
  match rs with
  | [] => Continue s
  | r :: rs' =>
      match step cfg pos s r with
      | Continue s' => run cfg (S pos) s' rs'
      | o => o
      end
  end.

(** Row identity after expansion: well, I, J, first layer and date. *)
Definition row_id (r : CompletionRow) : string * Z * Z * Z * option SimDate :=
  (WELL r, I_ r, J_ r, K1 r, DATE r).

Definition fill_start_date (sd : option SimDate) (r : CompletionRow) : CompletionRow :=
  match DATE r with
  | None => {| WELL := WELL r; I_ := I_ r; J_ := J_ r; K1 := K1 r; K2 := K2 r;
              OP_SH := OP_SH r; REST := REST r; DATE := sd |}
  | Some _ => r
  end.

(** Modelled from the spec (3, 4.6, 6): one row per identity (the last
    one), undated rows given [start_date] when supplied, and no table at
    all when there is no row. *)
Definition finalize (cfg : Config) (s : State) : list (string * list CompletionRow) :=
  match map (fill_start_date (start_date cfg)) (dedup_last row_id (store s)) with
  | [] => []
  | rows => [("COMPDAT", rows)]
  end.

(** What [deck2dfs] hands to its caller: a mapping from keyword to table,
    or a raised error. *)
Inductive Conversion :=
| Tables (m : list (string * list CompletionRow))
| Raised (e : ConvError).

Definition deck2dfs (cfg : Config) (rs : list DeckRecord) : Conversion :=
  match run cfg 0 init_state rs with
  | Continue s => Tables (finalize cfg s)
  | Abort e => Raised e
  | Abandon _ => Tables []
  end.

(** [deck2dfs(deck)["COMPDAT"]], [None] when it raises or has no such
    table. *)
Definition compdat_df (c : Conversion) : option (list CompletionRow) :=
  match c with
  | Tables m => match List.find (fun kv => String.eqb (fst kv) "COMPDAT") m with
                | Some kv => Some (snd kv)
                | None => None
                end
  | Raised _ => None
  end.

(** The exception the Python caller sees. *)
Inductive PyException := ValueError (msg : string).

Definition python_exception (e : ConvError) : PyException :=
  match e with
  | MissingDefaultError w f _ =>
      ValueError ("WELSPECS must be provided when " ++ f ++
                  " is defaulted in COMPDAT, well " ++ w)
  | UnknownWellError p _ =>
      ValueError ("A WELOPEN keyword is not acting on any existing connection: " ++ p)
  | DateOrderError _ => ValueError "Dates must be increasing"
  end.

(* ------------------------------------------------------------------ *)
(** ** Inverse serializer *)

Section Serializer.

(** When two back-to-back group dates count as contiguous: the spec
    leaves the criterion open, so the serializer is stated for any. *)
Variable contiguous : SimDate -> SimDate -> bool.

(** The COMPDAT record rendering a table row. *)
Definition row_record (r : CompletionRow) : DeckRecord :=
  COMPDAT {| cd_well := WELL r; cd_i := Lit (I_ r); cd_j := Lit (J_ r);
             cd_k1 := K1 r; cd_k2 := K2 r; cd_status := OP_SH r;
             cd_rest := REST r |}.

Definition date_eqb (a b : option SimDate) : bool := bool_decide (a = b).

(** Put a row into the group of its date, or open a new last group. *)
Fixpoint add_to_groups (r : CompletionRow)
    (gs : list (option SimDate * list CompletionRow))
    : list (option SimDate * list CompletionRow) :=
  match gs with
  | [] => [(DATE r, [r])]
  | (d, rs) :: gs' =>
      if date_eqb d (DATE r) then (d, rs ++ [r]) :: gs'
      else (d, rs) :: add_to_groups r gs'
  end.

(** Modelled from the spec (4.7): rows grouped by date, groups in
    first-seen date order. *)
Definition date_groups (rows : list CompletionRow)
    : list (option SimDate * list CompletionRow) :=
  fold_left (fun gs r => add_to_groups r gs) rows [].

(** Modelled from the spec (4.7): the time-control record before a group
    of date [d]; [prev] is the date of the previous group, [None] for the
    first group. *)
Definition time_control (prev : option (option SimDate)) (d : option SimDate)
    : list DeckRecord :=
  match d with
  | None => []
  | Some d' =>
      match prev with
      | Some (Some p) => if contiguous p d' then [TSTEP [(d' - p)%Qc]] else [DATES d']
      | _ => [DATES d']
      end
  end.

Fixpoint emit_groups (prev : option (option SimDate))
    (gs : list (option SimDate * list CompletionRow)) : list DeckRecord :=
  match gs with
  | [] => []
  | (d, rows) :: gs' => time_control prev d ++ map row_record rows ++ emit_groups (Some d) gs'
  end.

(** Modelled from the spec (4.7): [df2ecl] on a COMPDAT table, as the
    record stream the external parser reads back from its text. *)
Definition df2ecl (rows : list CompletionRow) : list DeckRecord :=
  emit_groups None (date_groups rows).

End Serializer.

(* ================================================================== *)
(** * Properties *)

(* ------------------------------------------------------------------ *)
(** ** Range expansion *)

Lemma length_zrange (a : Z) (n : nat) : length (zrange a n) = n.
Proof. revert a; induction n; intros a; simpl; [reflexivity | now rewrite IHn]. Qed.

Section ExpandLaws.
Context {R : Type} `{RangeRecord R}.
Hypothesis lo_set : forall k r, range_lo (set_range k r) = k.
Hypothesis hi_set : forall k r, range_hi (set_range k r) = k.
Hypothesis set_same : forall r, range_lo r = range_hi r -> set_range (range_lo r) r = r.

Lemma expand_rows (r : R) :
  fst (expand r) =
  map (fun k => set_range k r)
      (zrange (Z.min (range_lo r) (range_hi r))
              (Z.to_nat (Z.abs (range_hi r - range_lo r) + 1))).
Proof.
  unfold expand; simpl. do 3 f_equal. lia.
Qed.

Lemma expand_lo (r : R) :
  map range_lo (fst (expand r)) =
  zrange (Z.min (range_lo r) (range_hi r))
         (Z.to_nat (Z.abs (range_hi r - range_lo r) + 1)).
Proof.
  rewrite expand_rows, map_map. erewrite map_ext by (intros; apply lo_set).
  apply map_id.
Qed.

Lemma expand_hi (r : R) :
  map range_hi (fst (expand r)) =
  zrange (Z.min (range_lo r) (range_hi r))
         (Z.to_nat (Z.abs (range_hi r - range_lo r) + 1)).
Proof.
  rewrite expand_rows, map_map. erewrite map_ext by (intros; apply hi_set).
  apply map_id.
Qed.

Lemma expand_degenerate (r : R) :
  range_lo r = range_hi r -> fst (expand r) = [r].
Proof.
  intros Heq. rewrite expand_rows, <- Heq, Z.min_id, Z.sub_diag. simpl.
  now rewrite set_same.
Qed.

End ExpandLaws.

Lemma compdat_range_laws :
  (forall k (r : CompletionRow), range_lo (set_range k r) = k) /\
  (forall k (r : CompletionRow), range_hi (set_range k r) = k) /\
  (forall r : CompletionRow, range_lo r = range_hi r -> set_range (range_lo r) r = r).
Proof.
  repeat split; try reflexivity.
  intros [] Heq; simpl in *; now subst.
Qed.

Lemma welsegs_range_laws :
  (forall k (r : SegmentRow), range_lo (set_range k r) = k) /\
  (forall k (r : SegmentRow), range_hi (set_range k r) = k) /\
  (forall r : SegmentRow, range_lo r = range_hi r -> set_range (range_lo r) r = r).
Proof.
  repeat split; try reflexivity.
  intros [] Heq; simpl in *; now subst.
Qed.

(** What expanding one record with interval [a, b] yields: one copy of the
    record per integer of the normalised interval, ascending, with only
    the interval fields replaced; the record itself when [a = b]; a
    warning exactly when the interval is inverted. *)
Definition expansion_ok {R} `{RangeRecord R} (r : R) : Prop :=
  let a := range_lo r in
  let b := range_hi r in
  let ks := zrange (Z.min a b) (Z.to_nat (Z.abs (b - a) + 1)) in
  fst (expand r) = map (fun k => set_range k r) ks /\
  map range_lo (fst (expand r)) = ks /\
  map range_hi (fst (expand r)) = ks /\
  length (fst (expand r)) = Z.to_nat (Z.abs (b - a) + 1) /\
  (a = b -> fst (expand r) = [r]) /\
  snd (expand r) = (if b <? a then [malformed_range_warning] else []).

Lemma expansion_ok_generic {R} `{RangeRecord R} :
  (forall k r, range_lo (set_range k r) = k) ->
  (forall k r, range_hi (set_range k r) = k) ->
  (forall r, range_lo r = range_hi r -> set_range (range_lo r) r = r) ->
  forall r : R, expansion_ok r.
Proof.
  intros Hlo Hhi Hsame r. unfold expansion_ok.
  split; [apply expand_rows|].
  split; [apply expand_lo; auto|].
  split; [apply expand_hi; auto|].
  split; [rewrite expand_rows, length_map; apply length_zrange|].
  split; [apply expand_degenerate; auto|].
  reflexivity.
Qed.

Definition layers_10_20 : list Z := [10; 11; 12; 13; 14; 15; 16; 17; 18; 19; 20].

(** Claim C4. Range expansion of a completion (K1..K2) or segment
    (SEGMENT1..SEGMENT2) record with interval [a, b] yields exactly one
    row per integer of the normalised closed interval, ascending, each a
    copy with only the interval fields replaced; [k, k] yields the record
    itself; [10, 20] and [20, 10] both yield 11 rows with layers 10..20
    ascending, the inverted one with a MalformedRangeWarning logged. *)
Theorem range_expansion :
  (forall r : CompletionRow, expansion_ok r) /\
  (forall s : SegmentRow, expansion_ok s) /\
  (forall r : CompletionRow, K1 r = 10 -> K2 r = 20 ->
     map K1 (fst (expand r)) = layers_10_20 /\
     map K2 (fst (expand r)) = layers_10_20 /\
     snd (expand r) = []) /\
  (forall r : CompletionRow, K1 r = 20 -> K2 r = 10 ->
     map K1 (fst (expand r)) = layers_10_20 /\
     map K2 (fst (expand r)) = layers_10_20 /\
     snd (expand r) = [malformed_range_warning]).
Proof.
  destruct compdat_range_laws as (Hlo & Hhi & Hsame).
  destruct welsegs_range_laws as (Hlo' & Hhi' & Hsame').
  split; [apply expansion_ok_generic; auto|].
  split; [apply expansion_ok_generic; auto|].
  split; intros r H1 H2.
  - unfold expand; simpl. rewrite H1, H2. repeat split; reflexivity.
  - unfold expand; simpl. rewrite H1, H2. repeat split; reflexivity.
Qed.

Lemma range_expansion_witness :
  let r := {| WELL := "OP1"; I_ := 33; J_ := 44; K1 := 20; K2 := 10;
              OP_SH := "OPEN"; REST := []; DATE := None |} in
  expansion_ok r /\
  map K1 (fst (expand r)) = layers_10_20 /\
  map K2 (fst (expand r)) = layers_10_20 /\
  snd (expand r) = [malformed_range_warning].
Proof.
  intros r. split.
  - apply (proj1 range_expansion).
  - apply (proj2 (proj2 (proj2 range_expansion))); reflexivity.
Defined.

(* ------------------------------------------------------------------ *)
(** ** Running a stream *)

Lemma run_app (cfg : Config) (l1 l2 : list DeckRecord) (pos : nat) (s : State) :
  run cfg pos s (l1 ++ l2) =
  match run cfg pos s l1 with
  | Continue s' => run cfg (pos + length l1)%nat s' l2
  | o => o
  end.
Proof.
  revert pos s; induction l1 as [|r l1 IH]; intros pos s; simpl.
  - now rewrite Nat.add_0_r.
  - destruct (step cfg pos s r); try reflexivity.
    rewrite IH, Nat.add_succ_r. reflexivity.
Qed.

Lemma run_prefix (cfg : Config) (pre post : list DeckRecord) (s : State)
    (r : DeckRecord) :
  run cfg 0 init_state pre = Continue s ->
  run cfg 0 init_state (pre ++ r :: post) =
  match step cfg (length pre) s r with
  | Continue s' => run cfg (S (length pre)) s' post
  | o => o
  end.
Proof. intros Hpre. rewrite run_app, Hpre. reflexivity. Qed.

(** The most recent WELSPECS of a well in a list of records. *)
Fixpoint last_welspecs (w : string) (rs : list DeckRecord) : option (Z * Z) :=
  match rs with
  | [] => None
  | r :: rs' =>
      match last_welspecs w rs' with
      | Some loc => Some loc
      | None =>
          match r with
          | WELSPECS w' hi hj => if String.eqb w' w then Some (hi, hj) else None
          | _ => None
          end
      end
  end.

Lemma last_welspecs_none (w : string) (rs : list DeckRecord) :
  (forall hi hj, ~ In (WELSPECS w hi hj) rs) -> last_welspecs w rs = None.
Proof.
  induction rs as [|r rs IH]; intros Hno; simpl; [reflexivity|].
  rewrite IH by (intros hi hj Hin; apply (Hno hi hj); now right).
  destruct r; try reflexivity.
  destruct (String.eqb_spec well w); [|reflexivity].
  subst. exfalso. apply (Hno head_i head_j). now left.
Qed.

Lemma step_welspecs (cfg : Config) (pos : nat) (s s' : State) (r : DeckRecord)
    (w : string) :
  step cfg pos s r = Continue s' ->
  welspecs s' !! w =
  match r with
  | WELSPECS w' hi hj => if String.eqb w' w then Some (hi, hj) else welspecs s !! w
  | _ => welspecs s !! w
  end.
Proof.
  destruct r as [d|steps|w' hi hj|c|pat st]; simpl; intros Hs.
  - destruct (clock s); [destruct (Qclt_bool d _)|]; inversion Hs; reflexivity.
  - destruct (clock s); [destruct (Qclt_bool (sum_list steps) _)|]; inversion Hs; reflexivity.
  - inversion Hs; subst; simpl.
    destruct (String.eqb_spec w' w).
    + subst. apply lookup_insert_eq.
    + apply lookup_insert_ne. congruence.
  - destruct (resolve _ _ _ _ _) as [e|[i j]]; inversion Hs; reflexivity.
  - unfold apply_status_change in Hs.
    destruct (_ || _); inversion Hs; reflexivity.
Qed.

(** The registry after a run: the latest WELSPECS of each well wins. *)
Lemma run_welspecs (cfg : Config) (rs : list DeckRecord) :
  forall pos s0 s w,
  run cfg pos s0 rs = Continue s ->
  welspecs s !! w =
  match last_welspecs w rs with Some loc => Some loc | None => welspecs s0 !! w end.
Proof.
  induction rs as [|r rs IH]; intros pos s0 s w Hrun; simpl in *.
  - now inversion Hrun.
  - destruct (step cfg pos s0 r) as [s1| |] eqn:Hs; try discriminate.
    rewrite (IH _ _ _ w Hrun).
    destruct (last_welspecs w rs); [reflexivity|].
    rewrite (step_welspecs _ _ _ _ _ w Hs).
    destruct r; try reflexivity.
    destruct (String.eqb well w); reflexivity.
Qed.

Lemma run_init_welspecs (cfg : Config) (rs : list DeckRecord) (s : State) (w : string) :
  run cfg 0 init_state rs = Continue s -> welspecs s !! w = last_welspecs w rs.
Proof.
  intros Hrun. rewrite (run_welspecs cfg rs 0 init_state s w Hrun).
  destruct (last_welspecs w rs); reflexivity.
Qed.

(* ------------------------------------------------------------------ *)
(** ** Default resolution of COMPDAT I and J *)

(** A sample COMPDAT line with no further items. *)
Definition compdat_line (w : string) (i j : Field) (k1 k2 : Z) (st : string)
    : CompdatRecord :=
  {| cd_well := w; cd_i := i; cd_j := j; cd_k1 := k1; cd_k2 := k2;
     cd_status := st; cd_rest := [] |}.

(** Claim C2 (as amended). When the conversion reaches a COMPDAT record
    (the records before it were processed without ending the conversion)
    whose I or J is defaulted (1* or 0) and no WELSPECS for its well comes
    earlier in the stream, the whole conversion aborts with
    MissingDefaultError naming the well, the defaulted field (I checked
    first) and the position, surfaced as a ValueError; a WELSPECS after it
    does not help. *)
Theorem missing_default_aborts (cfg : Config) (pre post : list DeckRecord)
    (s : State) (c : CompdatRecord) :
  run cfg 0 init_state pre = Continue s ->
  (forall hi hj, ~ In (WELSPECS (cd_well c) hi hj) pre) ->
  is_defaulted (cd_i c) = true \/ is_defaulted (cd_j c) = true ->
  let f := (if is_defaulted (cd_i c) then "I" else "J")%string in
  deck2dfs cfg (pre ++ COMPDAT c :: post) =
    Raised (MissingDefaultError (cd_well c) f (length pre)) /\
  python_exception (MissingDefaultError (cd_well c) f (length pre)) =
    ValueError ("WELSPECS must be provided when " ++ f ++
                " is defaulted in COMPDAT, well " ++ cd_well c).
Proof.
  intros Hrun Hno Hdef f. split; [|reflexivity].
  unfold deck2dfs. rewrite (run_prefix _ _ _ _ _ Hrun). simpl.
  assert (Hreg : welspecs s !! cd_well c = None).
  { rewrite (run_init_welspecs _ _ _ _ Hrun). now apply last_welspecs_none. }
  unfold resolve, resolve_field. rewrite Hreg. subst f.
  destruct (is_defaulted (cd_i c)) eqn:Hi; [reflexivity|].
  destruct Hdef as [H|H]; [discriminate|]. rewrite H. reflexivity.
Qed.

Lemma missing_default_aborts_witness :
  let c := compdat_line "OP1" Defaulted (Lit 0) 10 11 "OPEN" in
  deck2dfs default_config ([] ++ COMPDAT c :: [WELSPECS "OP1" 20 30]) =
    Raised (MissingDefaultError "OP1" "I" 0) /\
  python_exception (MissingDefaultError "OP1" "I" 0) =
    ValueError ("WELSPECS must be provided when " ++ "I" ++
                " is defaulted in COMPDAT, well " ++ "OP1").
Proof.
  intros c.
  apply (missing_default_aborts default_config [] [WELSPECS "OP1" 20 30]
           init_state c).
  - reflexivity.
  - intros hi hj H. destruct H.
  - left. reflexivity.
Defined.

(** Claim C2 fails as stated: a TSTEP read before any DATES ends the
    conversion with no tables before the defaulted COMPDAT is reached, so
    nothing is raised. *)
Lemma missing_default_not_raised :
  deck2dfs default_config
    [TSTEP [ndays 1]; COMPDAT (compdat_line "OP1" Defaulted (Lit 0) 10 11 "OPEN")] =
  Tables [].
Proof. reflexivity. Qed.

(** Claim C3. When a COMPDAT record for well [w] is reached and the most
    recent WELSPECS for [w] before it declared [(i, j)], a defaulted I
    (resp. J) resolves to [i] (resp. [j]) and a literal one keeps its
    value; declarations of other wells play no part ([last_welspecs w]
    only reads those of [w]). The rows the record adds carry these
    values. *)
Theorem resolve_most_recent (cfg : Config) (pre : list DeckRecord) (s : State)
    (c : CompdatRecord) (i j : Z) :
  run cfg 0 init_state pre = Continue s ->
  last_welspecs (cd_well c) pre = Some (i, j) ->
  let ri := if is_defaulted (cd_i c) then i else literal (cd_i c) in
  let rj := if is_defaulted (cd_j c) then j else literal (cd_j c) in
  resolve (length pre) (welspecs s) (cd_well c) (cd_i c) (cd_j c) = inr (ri, rj) /\
  run cfg 0 init_state (pre ++ [COMPDAT c]) =
    Continue (set_store s (store s ++ unroll cfg (compdat_row c ri rj (clock s)))).
Proof.
  intros Hrun Hlast ri rj.
  assert (Hres : resolve (length pre) (welspecs s) (cd_well c) (cd_i c) (cd_j c) =
                 inr (ri, rj)).
  { unfold resolve, resolve_field, ri, rj.
    rewrite (run_init_welspecs _ _ _ _ Hrun), Hlast.
    destruct (is_defaulted (cd_i c)), (is_defaulted (cd_j c)); reflexivity. }
  split; [exact Hres|].
  rewrite (run_prefix _ _ _ _ _ Hrun). simpl. rewrite Hres. reflexivity.
Qed.

Lemma resolve_most_recent_witness :
  let pre := [DATES (date_of 2030 1 1); WELSPECS "OP1" 20 30;
              COMPDAT (compdat_line "OP1" Defaulted (Lit 0) 10 11 "OPEN");
              DATES (date_of 2040 1 1); WELSPECS "OP2" 20 99;
              WELSPECS "OP1" 20 33] in
  let c := compdat_line "OP1" Defaulted (Lit 0) 10 11 "OPEN" in
  exists s,
  run default_config 0 init_state pre = Continue s /\
  resolve (length pre) (welspecs s) "OP1" Defaulted (Lit 0) = inr (20, 33) /\
  run default_config 0 init_state (pre ++ [COMPDAT c]) =
    Continue (set_store s (store s ++
      unroll default_config (compdat_row c 20 33 (clock s)))).
Proof.
  intros pre c. eexists. split; [reflexivity|].
  apply (resolve_most_recent default_config pre _ c 20 33); reflexivity.
Defined.

(* ------------------------------------------------------------------ *)
(** ** TSTEP on an undated clock *)

(** Claim C10. When a TSTEP is read while the clock is still undated, the
    conversion gives up with a critical log message and [deck2dfs]
    returns the empty mapping, whatever was read before (completion
    records included) and after. *)
Theorem tstep_undated_no_tables (cfg : Config) (pre post : list DeckRecord)
    (s : State) (steps : list Qc) :
  run cfg 0 init_state pre = Continue s ->
  clock s = None ->
  run cfg 0 init_state (pre ++ TSTEP steps :: post) = Abandon tstep_critical_msg /\
  deck2dfs cfg (pre ++ TSTEP steps :: post) = Tables [].
Proof.
  intros Hrun Hclock.
  assert (H : run cfg 0 init_state (pre ++ TSTEP steps :: post) =
              Abandon tstep_critical_msg).
  { rewrite (run_prefix _ _ _ _ _ Hrun). simpl. now rewrite Hclock. }
  split; [exact H|]. unfold deck2dfs. now rewrite H.
Qed.

Lemma tstep_undated_no_tables_witness :
  let c1 := compdat_line "OP1" (Lit 33) (Lit 110) 31 31 "OPEN" in
  let c2 := compdat_line "OP1" (Lit 34) (Lit 111) 32 32 "OPEN" in
  deck2dfs default_config [COMPDAT c1] <> Tables [] /\
  run default_config 0 init_state ([COMPDAT c1] ++ TSTEP [ndays 1] :: [COMPDAT c2]) =
    Abandon tstep_critical_msg /\
  deck2dfs default_config ([COMPDAT c1] ++ TSTEP [ndays 1] :: [COMPDAT c2]) = Tables [].
Proof.
  intros c1 c2. split; [discriminate|].
  eapply (tstep_undated_no_tables default_config [COMPDAT c1] [COMPDAT c2]);
    reflexivity.
Defined.

(* ------------------------------------------------------------------ *)
(** ** Status change on a well without completions *)

Lemma dedup_last_incl {A K} `{EqDecision K} (key : A -> K) (l : list A) (x : A) :
  In x (dedup_last key l) -> In x l.
Proof.
  induction l as [|y l IH]; simpl; [tauto|].
  destruct (existsb _ l); simpl; intros H; [right; auto|].
  destruct H; [now left | right; auto].
Qed.

Lemma live_rows_incl (w : string) (st : list CompletionRow) (x : CompletionRow) :
  In x (live_rows w st) -> In x st /\ WELL x = w.
Proof.
  unfold live_rows. intros H. apply dedup_last_incl in H.
  apply filter_In in H as [H1 H2]. split; [exact H1|].
  now apply String.eqb_eq.
Qed.

Lemma unroll_well (cfg : Config) (r x : CompletionRow) :
  In x (unroll cfg r) -> WELL x = WELL r.
Proof.
  unfold unroll. destruct (unroll_ranges cfg); simpl.
  - unfold expand. simpl. intros H. apply in_map_iff in H as (k & <- & _).
    reflexivity.
  - intros [<-|[]]. reflexivity.
Qed.

(** A well for which no COMPDAT record was read has no row in the store. *)
Lemma run_no_rows (cfg : Config) (w : string) (rs : list DeckRecord) :
  forall pos s0 s,
  run cfg pos s0 rs = Continue s ->
  (forall c, In (COMPDAT c) rs -> cd_well c <> w) ->
  (forall x, In x (store s0) -> WELL x <> w) ->
  forall x, In x (store s) -> WELL x <> w.
Proof.
  induction rs as [|r rs IH]; intros pos s0 s Hrun Hno Hst; simpl in *.
  - now inversion Hrun; subst.
  - destruct (step cfg pos s0 r) as [s1| |] eqn:Hs; try discriminate.
    apply (IH _ _ _ Hrun); [intros c Hc; apply Hno; now right|].
    destruct r as [d|steps|w' hi hj|c|pat st]; simpl in Hs.
    + destruct (clock s0); [destruct (Qclt_bool d _)|]; inversion Hs; subst; exact Hst.
    + destruct (clock s0); [destruct (Qclt_bool (sum_list steps) _)|]; inversion Hs;
        subst; exact Hst.
    + inversion Hs; subst; exact Hst.
    + destruct (resolve _ _ _ _ _) as [e|[i j]]; inversion Hs; subst; simpl.
      intros x Hx. apply in_app_or in Hx as [Hx|Hx]; [now apply Hst|].
      apply unroll_well in Hx. rewrite Hx. simpl. apply Hno. now left.
    + unfold apply_status_change in Hs. destruct (_ || _); inversion Hs; subst.
      simpl. intros x Hx. apply in_app_or in Hx as [Hx|Hx]; [now apply Hst|].
      apply in_flat_map in Hx as (w' & _ & Hx).
      apply in_map_iff in Hx as (y & <- & Hy).
      apply live_rows_incl in Hy as [Hy _]. simpl. now apply Hst.
Qed.

(** Claim C7 (as amended). When the conversion reaches a WELOPEN record
    whose pattern matches no known well, or matches a well for which no
    COMPDAT record has been read, the whole conversion aborts with
    UnknownWellError naming the pattern and the position, surfaced as a
    ValueError. *)
Theorem welopen_unknown_well (cfg : Config) (pre post : list DeckRecord)
    (s : State) (pat st : string) :
  run cfg 0 init_state pre = Continue s ->
  matched_wells s pat = [] \/
  (exists w, In w (matched_wells s pat) /\
             forall c, In (COMPDAT c) pre -> cd_well c <> w) ->
  deck2dfs cfg (pre ++ WELOPEN pat st :: post) =
    Raised (UnknownWellError pat (length pre)) /\
  python_exception (UnknownWellError pat (length pre)) =
    ValueError ("A WELOPEN keyword is not acting on any existing connection: " ++ pat).
Proof.
  intros Hrun Hm. split; [|reflexivity].
  unfold deck2dfs. rewrite (run_prefix _ _ _ _ _ Hrun). simpl.
  unfold apply_status_change.
  destruct Hm as [Hm|(w & Hin & Hno)]; [now rewrite Hm|].
  assert (Hlive : live_rows w (store s) = []).
  { destruct (live_rows w (store s)) as [|x xs] eqn:E; [reflexivity|].
    exfalso. assert (Hx : In x (live_rows w (store s))) by (rewrite E; now left).
    apply live_rows_incl in Hx as [Hx Hw].
    refine (run_no_rows cfg w pre 0 init_state s Hrun Hno _ x Hx Hw).
    intros y []. }
  assert (Hex : existsb (fun w0 => match live_rows w0 (store s) with
                                    | [] => true | _ :: _ => false end)
                        (matched_wells s pat) = true).
  { apply existsb_exists. exists w. now rewrite Hlive. }
  rewrite Hex, orb_true_r. reflexivity.
Qed.

Lemma welopen_unknown_well_witness :
  let pre := [DATES (date_of 2001 5 1);
              COMPDAT (compdat_line "OP1" (Lit 33) (Lit 110) 31 31 "OPEN");
              WELSPECS "OP2" 66 110] in
  deck2dfs default_config (pre ++ WELOPEN "OP*" "SHUT" :: []) =
    Raised (UnknownWellError "OP*" 3) /\
  python_exception (UnknownWellError "OP*" 3) =
    ValueError ("A WELOPEN keyword is not acting on any existing connection: " ++ "OP*").
Proof.
  intros pre.
  destruct (run default_config 0 init_state pre) as [s| |] eqn:Hrun;
    try discriminate.
  apply (welopen_unknown_well default_config pre [] s).
  - exact Hrun.
  - right. exists "OP2"%string. split.
    + injection Hrun as <-. vm_compute. tauto.
    + intros c [H|[H|[H|[]]]]; try discriminate.
      injection H as <-. discriminate.
Defined.

(** Claim C7 fails as stated: a TSTEP read before any DATES ends the
    conversion with no tables before the WELOPEN on an unknown well is
    reached, so nothing is raised. *)
Lemma welopen_unknown_not_raised :
  deck2dfs default_config [TSTEP [ndays 1]; WELOPEN "OP2" "SHUT"] = Tables [].
Proof. reflexivity. Qed.

(* ------------------------------------------------------------------ *)
(** ** Date clock *)

Lemma unroll_fields (cfg : Config) (r x : CompletionRow) :
  In x (unroll cfg r) ->
  WELL x = WELL r /\ I_ x = I_ r /\ J_ x = J_ r /\ OP_SH x = OP_SH r /\
  REST x = REST r /\ DATE x = DATE r /\
  (unroll_ranges cfg = true \/ K1 x = K1 r /\ K2 x = K2 r) /\
  (unroll_ranges cfg = true -> K1 x = K2 x).
Proof.
  unfold unroll. destruct (unroll_ranges cfg); simpl.
  - unfold expand. simpl. intros H. apply in_map_iff in H as (k & <- & _).
    simpl. repeat split; auto.
  - intros [<-|[]]. repeat split; auto. discriminate.
Qed.

(** The rows a non-time-control record adds are stamped with the clock,
    which it leaves as it is. *)
Lemma step_stamps (cfg : Config) (pos : nat) (s s' : State) (r : DeckRecord) :
  is_time_control r = false ->
  step cfg pos s r = Continue s' ->
  clock s' = clock s /\
  exists new, store s' = store s ++ new /\ Forall (fun x => DATE x = clock s) new.
Proof.
  destruct r as [d|steps|w hi hj|c|pat st]; simpl; intros Ht Hs; try discriminate.
  - inversion Hs; subst. split; [reflexivity|]. exists []. simpl.
    split; [symmetry; apply app_nil_r | constructor].
  - destruct (resolve _ _ _ _ _) as [e|[i j]]; inversion Hs; subst.
    split; [reflexivity|]. eexists. split; [reflexivity|].
    apply List.Forall_forall. intros x Hx. apply unroll_fields in Hx.
    destruct Hx as (_ & _ & _ & _ & _ & -> & _). reflexivity.
  - unfold apply_status_change in Hs. destruct (_ || _); inversion Hs; subst.
    split; [reflexivity|]. eexists. split; [reflexivity|].
    apply List.Forall_forall. intros x Hx.
    apply in_flat_map in Hx as (w & _ & Hx).
    apply in_map_iff in Hx as (y & <- & _). reflexivity.
Qed.

(** Order between concrete instants, by evaluation. *)
(** A decidable proposition, settled by evaluating its decision. *)
Lemma decided {P : Prop} `{Decision P} : bool_decide P = true -> P.
Proof. apply bool_decide_eq_true. Qed.

Lemma Qcle_check (a b : Qc) : bool_decide (a <= b)%Qc = true -> (a <= b)%Qc.
Proof. apply bool_decide_eq_true. Qed.

Lemma Qclt_check (a b : Qc) : bool_decide (a < b)%Qc = true -> (a < b)%Qc.
Proof. apply bool_decide_eq_true. Qed.

(** The deck of test_tstep. *)
Definition tstep_deck : list DeckRecord :=
  [DATES (date_of 2001 5 1);
   COMPDAT (compdat_line "OP1" (Lit 33) (Lit 110) 31 31 "OPEN");
   TSTEP [ndays 1];
   COMPDAT (compdat_line "OP1" (Lit 34) (Lit 111) 32 32 "OPEN");
   TSTEP [ndays 2; ndays 3];
   COMPDAT (compdat_line "OP1" (Lit 35) (Lit 111) 33 33 "SHUT")].

(** Claim C6 (as amended). A DATES record sets the clock to its date,
    unless that date is before the current one (DateOrderError); a TSTEP
    read on a dated clock advances it by the total of its steps, unless
    that total is negative (DateOrderError); every other record leaves
    the clock as it is and stamps the rows it adds with it. DATES 1 MAY
    2001, TSTEP 1, TSTEP 2 3 stamp the completions read after each of
    them with 2001-05-01, 2001-05-02 and 2001-05-07. *)
Theorem date_clock (cfg : Config) (pos : nat) (s : State) :
  (forall d, (match clock s with Some c => (c <= d)%Qc | None => True end) ->
     step cfg pos s (DATES d) = Continue (set_clock s (Some d))) /\
  (forall d c, clock s = Some c -> (d < c)%Qc ->
     step cfg pos s (DATES d) = Abort (DateOrderError pos)) /\
  (forall steps c, clock s = Some c -> (ndays 0 <= sum_list steps)%Qc ->
     step cfg pos s (TSTEP steps) =
       Continue (set_clock s (Some (c + sum_list steps)%Qc))) /\
  (forall steps c, clock s = Some c -> (sum_list steps < ndays 0)%Qc ->
     step cfg pos s (TSTEP steps) = Abort (DateOrderError pos)) /\
  (forall r s', is_time_control r = false -> step cfg pos s r = Continue s' ->
     clock s' = clock s /\
     exists new, store s' = store s ++ new /\ Forall (fun x => DATE x = clock s) new) /\
  option_map (map DATE) (compdat_df (deck2dfs default_config tstep_deck)) =
    Some [Some (date_of 2001 5 1); Some (date_of 2001 5 2);
          Some (date_of 2001 5 7)].
Proof.
  split; [|split; [|split; [|split; [|split]]]].
  - intros d Hd. simpl. destruct (clock s) as [c|]; [|reflexivity].
    unfold Qclt_bool. destruct (bool_decide_reflect (d < c)%Qc) as [Hlt|_];
      [exfalso; exact (Qclt_not_le _ _ Hlt Hd) | reflexivity].
  - intros d c Hc Hlt. simpl. rewrite Hc.
    unfold Qclt_bool. destruct (bool_decide_reflect (d < c)%Qc); [reflexivity | contradiction].
  - intros steps c Hc Hle. simpl. rewrite Hc.
    unfold Qclt_bool. destruct (bool_decide_reflect (sum_list steps < ndays 0)%Qc) as [Hlt|_];
      [exfalso; exact (Qclt_not_le _ _ Hlt Hle) | reflexivity].
  - intros steps c Hc Hlt. simpl. rewrite Hc.
    unfold Qclt_bool.
    destruct (bool_decide_reflect (sum_list steps < ndays 0)%Qc); [reflexivity | contradiction].
  - intros r s'. apply step_stamps.
  - vm_compute. reflexivity.
Qed.

Lemma date_clock_witness :
  let s := set_clock init_state (Some (datetime_of 2001 1 1 3 3 3)) in
  step default_config 2 s (DATES (date_of 2001 6 1)) =
    Continue (set_clock s (Some (date_of 2001 6 1))) /\
  step default_config 2 s (DATES (date_of 2000 1 1)) = Abort (DateOrderError 2) /\
  step default_config 2 s (TSTEP [qdays 1 2; qdays 1 4]) =
    Continue (set_clock s (Some (datetime_of 2001 1 1 3 3 3 + sum_list [qdays 1 2; qdays 1 4])%Qc)) /\
  step default_config 2 s (TSTEP [ndays (-1)]) = Abort (DateOrderError 2) /\
  (forall s', step default_config 2 s (WELSPECS "OP1" 20 30) = Continue s' ->
     clock s' = clock s /\
     exists new, store s' = store s ++ new /\ Forall (fun x => DATE x = clock s) new).
Proof.
  intros s.
  destruct (date_clock default_config 2 s) as (H1 & H2 & H3 & H4 & H5 & _).
  split; [apply H1; unfold s; cbn [clock set_clock]; apply Qcle_check; vm_compute; reflexivity|].
  split; [apply (H2 _ (datetime_of 2001 1 1 3 3 3));
          [reflexivity | apply Qclt_check; vm_compute; reflexivity]|].
  split; [apply H3; [reflexivity | apply Qcle_check; vm_compute; reflexivity]|].
  split; [apply (H4 _ (datetime_of 2001 1 1 3 3 3));
          [reflexivity | apply Qclt_check; vm_compute; reflexivity]|].
  intros s'. apply H5. reflexivity.
Defined.

(** Claim C6 fails as stated: a DATES record earlier than the clock does
    not set it; the conversion aborts with DateOrderError. *)
Lemma dates_backwards_rejected :
  run default_config 0 init_state
      [DATES (date_of 2001 5 1); DATES (date_of 2000 1 1)] =
    Abort (DateOrderError 1) /\
  deck2dfs default_config
      [DATES (date_of 2001 5 1); DATES (date_of 2000 1 1);
       COMPDAT (compdat_line "OP1" (Lit 33) (Lit 110) 31 31 "OPEN")] =
    Raised (DateOrderError 1).
Proof. split; reflexivity. Qed.

(* ------------------------------------------------------------------ *)
(** ** Streams without time control *)

Lemma resolve_error (pos : nat) (reg : gmap string (Z * Z)) (w : string)
    (fi fj : Field) (e : ConvError) :
  resolve pos reg w fi fj = inl e -> exists f, e = MissingDefaultError w f pos.
Proof.
  unfold resolve, resolve_field.
  destruct (is_defaulted fi); [destruct (reg !! w)|];
    (destruct (is_defaulted fj); [destruct (reg !! w)|]);
    intros H; inversion H; eauto.
Qed.

Lemma run_undated (cfg : Config) (rs : list DeckRecord) :
  forall pos s0,
  Forall (fun r => is_time_control r = false) rs ->
  clock s0 = None ->
  Forall (fun x => DATE x = None) (store s0) ->
  match run cfg pos s0 rs with
  | Continue s => clock s = None /\ Forall (fun x => DATE x = None) (store s)
  | Abort (MissingDefaultError _ _ _) | Abort (UnknownWellError _ _) => True
  | _ => False
  end.
Proof.
  induction rs as [|r rs IH]; intros pos s0 Hrs Hc Hst; simpl; [auto|].
  inversion Hrs as [|? ? Hr Hrs']; subst.
  destruct (step cfg pos s0 r) as [s1|e|msg] eqn:Hs.
  - destruct (step_stamps _ _ _ _ _ Hr Hs) as (Hc1 & new & Hst1 & Hnew).
    apply IH; [exact Hrs' | congruence |].
    rewrite Hst1. apply Forall_app. split; [exact Hst|]. now rewrite <- Hc.
  - destruct r as [d|steps|w hi hj|c|pat st]; simpl in Hr, Hs; try discriminate.
    + destruct (resolve _ _ _ _ _) as [e'|[i j]] eqn:Hres; inversion Hs; subst.
      apply resolve_error in Hres as [f ->]. exact I.
    + unfold apply_status_change in Hs. destruct (_ || _); inversion Hs; exact I.
  - destruct r; simpl in Hr, Hs; try discriminate.
    + destruct (resolve _ _ _ _ _) as [e'|[i j]]; inversion Hs.
    + unfold apply_status_change in Hs. destruct (_ || _); inversion Hs.
Qed.

Lemma unroll_nonempty (cfg : Config) (r : CompletionRow) : unroll cfg r <> [].
Proof.
  unfold unroll. destruct (unroll_ranges cfg); [|discriminate].
  unfold expand; cbn [fst].
  destruct (Z.to_nat _) eqn:E; [lia|discriminate].
Qed.

Lemma run_store_grows (cfg : Config) (rs : list DeckRecord) :
  forall pos s s',
  Forall (fun r => is_time_control r = false) rs ->
  run cfg pos s rs = Continue s' ->
  exists new, store s' = store s ++ new.
Proof.
  induction rs as [|r rs IH]; intros pos s s' Hrs Hrun; simpl in Hrun.
  - inversion Hrun; subst. exists []. now rewrite app_nil_r.
  - inversion Hrs as [|? ? Hr Hrs']; subst.
    destruct (step cfg pos s r) as [s1| |] eqn:Hs; try discriminate.
    destruct (step_stamps _ _ _ _ _ Hr Hs) as (_ & new1 & Hst1 & _).
    destruct (IH _ _ _ Hrs' Hrun) as [new2 Hst2].
    exists (new1 ++ new2). now rewrite Hst2, Hst1, app_assoc.
Qed.

(** A COMPDAT record read by a run that goes on adds at least one row. *)
Lemma run_compdat_store (cfg : Config) (c : CompdatRecord) (rs : list DeckRecord) :
  forall pos s s',
  Forall (fun r => is_time_control r = false) rs ->
  In (COMPDAT c) rs ->
  run cfg pos s rs = Continue s' ->
  store s' <> [].
Proof.
  induction rs as [|r rs IH]; intros pos s s' Hrs Hin Hrun; [destruct Hin|].
  simpl in Hrun. inversion Hrs as [|? ? Hr Hrs']; subst.
  destruct (step cfg pos s r) as [s1| |] eqn:Hs; try discriminate.
  destruct Hin as [->|Hin]; [|exact (IH _ _ _ Hrs' Hin Hrun)].
  destruct (run_store_grows _ _ _ _ _ Hrs' Hrun) as [new Hst].
  simpl in Hs. destruct (resolve _ _ _ _ _) as [e|[i j]]; inversion Hs; subst.
  rewrite Hst. cbn [store set_store]. intros E.
  apply app_eq_nil in E as [E _]. apply app_eq_nil in E as [_ E].
  exact (unroll_nonempty _ _ E).
Qed.

Lemma dedup_last_nonempty {A K} `{EqDecision K} (key : A -> K) (l : list A) :
  l <> [] -> dedup_last key l <> [].
Proof.
  induction l as [|x xs IH]; intros Hl; [contradiction|]. simpl.
  destruct (existsb _ xs) eqn:E; [|discriminate].
  apply IH. intros ->. discriminate.
Qed.

(** Claim C9 (as amended). For a stream with no DATES or TSTEP record, the
    missing time control never makes the conversion fail: the run is
    neither aborted by a date error nor abandoned. Either it goes to the
    end and [deck2dfs] returns the tables of its final state, where every
    row carries the undated marker (or the [start_date] option when
    supplied) and, when the stream has a COMPDAT record, the COMPDAT table
    is there and not empty; or the conversion fails only because a COMPDAT
    default cannot be resolved or a WELOPEN targets no completed well. *)
Theorem undated_without_time_control (cfg : Config) (rs : list DeckRecord) :
  Forall (fun r => is_time_control r = false) rs ->
  (exists s, run cfg 0 init_state rs = Continue s /\
     deck2dfs cfg rs = Tables (finalize cfg s) /\
     (forall name rows, In (name, rows) (finalize cfg s) ->
        Forall (fun x => DATE x = start_date cfg) rows) /\
     ((exists c, In (COMPDAT c) rs) ->
        exists rows, finalize cfg s = [("COMPDAT", rows)] /\ rows <> [])) \/
  (exists w f pos, deck2dfs cfg rs = Raised (MissingDefaultError w f pos)) \/
  (exists pat pos, deck2dfs cfg rs = Raised (UnknownWellError pat pos)).
Proof.
  intros Hrs.
  pose proof (run_undated cfg rs 0 init_state Hrs eq_refl (List.Forall_nil _)) as H.
  unfold deck2dfs.
  destruct (run cfg 0 init_state rs) as [s|[w f pos|pat pos|pos]|msg] eqn:Hrun;
    try contradiction.
  - left. exists s. split; [reflexivity|]. split; [reflexivity|]. split.
    + destruct H as [_ Hst]. intros name rows Hin.
      unfold finalize in Hin.
      destruct (map (fill_start_date (start_date cfg)) (dedup_last row_id (store s)))
        as [|x xs] eqn:E; [destruct Hin|].
      destruct Hin as [Hin|[]]. injection Hin as _ <-. rewrite <- E.
      apply List.Forall_forall. intros y Hy.
      apply in_map_iff in Hy as (z & <- & Hz).
      apply dedup_last_incl in Hz.
      rewrite List.Forall_forall in Hst. specialize (Hst z Hz).
      unfold fill_start_date. rewrite Hst. reflexivity.
    + intros [c Hc].
      pose proof (dedup_last_nonempty row_id _
                    (run_compdat_store cfg c rs 0 init_state s Hrs Hc Hrun)) as Hne.
      unfold finalize.
      destruct (dedup_last row_id (store s)) as [|x xs]; [contradiction|].
      eexists. split; [reflexivity|discriminate].
  - right; left. eauto.
  - right; right. eauto.
Qed.

(** The deck of test_str2df, COMPDAT part. *)
Definition str2df_deck : list DeckRecord :=
  [WELSPECS "OP1" 41 125;
   COMPDAT {| cd_well := "OP1"; cd_i := Lit 33; cd_j := Lit 110; cd_k1 := 31;
              cd_k2 := 31; cd_status := "OPEN";
              cd_rest := [("DIR", "Y")] |}].

Lemma undated_without_time_control_witness :
  let cfg := {| unroll_ranges := true; start_date := Some (date_of 2000 1 1) |} in
  compdat_df (deck2dfs default_config str2df_deck) =
    Some [{| WELL := "OP1"; I_ := 33; J_ := 110; K1 := 31; K2 := 31; OP_SH := "OPEN";
             REST := [("DIR", "Y")]; DATE := None |}] /\
  ((exists s, run cfg 0 init_state str2df_deck = Continue s /\
     deck2dfs cfg str2df_deck = Tables (finalize cfg s) /\
     (forall name rows, In (name, rows) (finalize cfg s) ->
        Forall (fun x => DATE x = start_date cfg) rows) /\
     ((exists c, In (COMPDAT c) str2df_deck) ->
        exists rows, finalize cfg s = [("COMPDAT", rows)] /\ rows <> [])) \/
   (exists w f pos, deck2dfs cfg str2df_deck = Raised (MissingDefaultError w f pos)) \/
   (exists pat pos, deck2dfs cfg str2df_deck = Raised (UnknownWellError pat pos))).
Proof.
  intros cfg. split; [reflexivity|].
  apply undated_without_time_control.
  repeat constructor.
Defined.

(** Claim C9 fails as stated: a stream without time control can still
    raise, here because I and J are defaulted with no WELSPECS. *)
Lemma no_time_control_can_raise :
  deck2dfs default_config
    [COMPDAT (compdat_line "OP1" Defaulted Defaulted 1 1 "OPEN")] =
  Raised (MissingDefaultError "OP1" "I" 0).
Proof. reflexivity. Qed.

(* ------------------------------------------------------------------ *)
(** ** Round trip through the serializer *)

(** Dates with the undated marker first. *)
Definition date_le (a b : option SimDate) : Prop :=
  match a, b with
  | None, _ => True
  | Some _, None => False
  | Some x, Some y => (x <= y)%Qc
  end.

Definition date_lt (a b : option SimDate) : Prop :=
  match a, b with
  | None, Some _ => True
  | Some x, Some y => (x < y)%Qc
  | _, _ => False
  end.

Lemma date_le_refl (a : option SimDate) : date_le a a.
Proof. destruct a; simpl; [apply Qcle_refl | exact I]. Qed.

Lemma date_le_trans (a b c : option SimDate) :
  date_le a b -> date_le b c -> date_le a c.
Proof.
  destruct a, b, c; simpl; try tauto. apply Qcle_trans.
Qed.

Lemma date_le_lt (a b : option SimDate) : date_le a b -> a <> b -> date_lt a b.
Proof.
  destruct a as [x|], b as [y|]; simpl; intros H1 H2; try tauto; try congruence.
  destruct (Qcle_lt_or_eq _ _ H1) as [H|H]; [exact H | congruence].
Qed.

Lemma date_lt_le_false (a b : option SimDate) : date_lt a b -> date_le b a -> False.
Proof.
  destruct a, b; simpl; try tauto. apply Qclt_not_le.
Qed.

Lemma SSorted_app {A} (R : A -> A -> Prop) (l1 l2 : list A) :
  StronglySorted R l1 -> StronglySorted R l2 ->
  (forall x y, In x l1 -> In y l2 -> R x y) ->
  StronglySorted R (l1 ++ l2).
Proof.
  induction l1 as [|x l1 IH]; intros H1 H2 H12; simpl; [exact H2|].
  inversion H1 as [|? ? Hs Hf]; subst. constructor.
  - apply IH; auto. intros a b Ha Hb. apply H12; [now right | exact Hb].
  - apply List.Forall_forall. intros y Hy. apply in_app_or in Hy as [Hy|Hy].
    + rewrite List.Forall_forall in Hf. now apply Hf.
    + apply H12; [now left | exact Hy].
Qed.

Lemma SSorted_const (a : option SimDate) (l : list (option SimDate)) :
  Forall (fun x => x = a) l -> StronglySorted date_le l.
Proof.
  induction l as [|x l IH]; intros H; constructor; inversion H; subst.
  - now apply IH.
  - apply List.Forall_forall. intros y Hy.
    rewrite List.Forall_forall in *. rewrite (H3 y Hy). apply date_le_refl.
Qed.

(** Rows the serializer renders as COMPDAT lines that read back as they
    are: a single layer and no location index that reads as defaulted. *)
Definition row_ok (x : CompletionRow) : Prop :=
  K1 x = K2 x /\ I_ x <> 0 /\ J_ x <> 0.

(** What a run of [deck2dfs] (default options) keeps true of its state. *)
Definition state_inv (s : State) : Prop :=
  StronglySorted date_le (map DATE (store s)) /\
  Forall (fun x => date_le (DATE x) (clock s)) (store s) /\
  Forall row_ok (store s) /\
  (forall w loc, welspecs s !! w = Some loc -> fst loc <> 0 /\ snd loc <> 0).

Definition welspecs_nonzero (r : DeckRecord) : Prop :=
  match r with WELSPECS _ hi hj => hi <> 0 /\ hj <> 0 | _ => True end.

Lemma resolve_field_nonzero (pos : nat) (reg : gmap string (Z * Z)) (w name : string)
    (pick : Z * Z -> Z) (f : Field) (z : Z) :
  (forall loc, reg !! w = Some loc -> pick loc <> 0) ->
  resolve_field pos reg w name pick f = inr z -> z <> 0.
Proof.
  intros Hreg. unfold resolve_field.
  destruct (is_defaulted f) eqn:Hd.
  - destruct (reg !! w) as [loc|] eqn:Hl; intros H; inversion H; subst.
    now apply Hreg.
  - intros H; inversion H; subst.
    destruct f; simpl in Hd; [discriminate|]. now apply Z.eqb_neq in Hd.
Qed.

Lemma resolve_nonzero (pos : nat) (reg : gmap string (Z * Z)) (w : string)
    (fi fj : Field) (i j : Z) :
  (forall w loc, reg !! w = Some loc -> fst loc <> 0 /\ snd loc <> 0) ->
  resolve pos reg w fi fj = inr (i, j) -> i <> 0 /\ j <> 0.
Proof.
  intros Hreg. unfold resolve.
  destruct (resolve_field pos reg w "I" fst fi) as [e|i'] eqn:E1; [discriminate|].
  destruct (resolve_field pos reg w "J" snd fj) as [e|j'] eqn:E2; [discriminate|].
  intros H; inversion H; subst. split.
  - eapply resolve_field_nonzero; [|exact E1]. intros loc Hl. apply (Hreg _ _ Hl).
  - eapply resolve_field_nonzero; [|exact E2]. intros loc Hl. apply (Hreg _ _ Hl).
Qed.

(** The rows added by a step, stamped with the clock, extend a state
    satisfying the invariant. *)
Lemma inv_append (s : State) (new : list CompletionRow) :
  state_inv s ->
  Forall (fun x => DATE x = clock s /\ row_ok x) new ->
  state_inv (set_store s (store s ++ new)).
Proof.
  intros (Hsort & Hle & Hok & Hreg) Hnew. unfold state_inv, set_store; simpl.
  rewrite List.Forall_forall in Hnew.
  split; [|split; [|split]].
  - rewrite map_app. apply SSorted_app; [exact Hsort| |].
    + apply (SSorted_const (clock s)). apply List.Forall_forall.
      intros d Hd. apply in_map_iff in Hd as (x & <- & Hx). now apply Hnew.
    + intros a b Ha Hb.
      apply in_map_iff in Ha as (x & <- & Hx). apply in_map_iff in Hb as (y & <- & Hy).
      rewrite List.Forall_forall in Hle. rewrite (proj1 (Hnew y Hy)). now apply Hle.
  - apply Forall_app. split; [exact Hle|].
    apply List.Forall_forall. intros x Hx. rewrite (proj1 (Hnew x Hx)).
    apply date_le_refl.
  - apply Forall_app. split; [exact Hok|].
    apply List.Forall_forall. intros x Hx. apply (Hnew x Hx).
  - exact Hreg.
Qed.

Lemma inv_clock (s : State) (d : SimDate) :
  state_inv s -> date_le (clock s) (Some d) -> state_inv (set_clock s (Some d)).
Proof.
  intros (Hsort & Hle & Hok & Hreg) Hd. unfold state_inv, set_clock; simpl.
  split; [exact Hsort|]. split; [|split; [exact Hok | exact Hreg]].
  apply List.Forall_forall. intros x Hx. rewrite List.Forall_forall in Hle.
  eapply date_le_trans; [apply Hle, Hx | exact Hd].
Qed.

Lemma step_inv (pos : nat) (s s' : State) (r : DeckRecord) :
  welspecs_nonzero r -> state_inv s ->
  step default_config pos s r = Continue s' -> state_inv s'.
Proof.
  intros Hr Hinv. destruct r as [d|steps|w hi hj|c|pat st]; simpl.
  - destruct (clock s) as [c|] eqn:Hc.
    + unfold Qclt_bool. destruct (bool_decide_reflect (d < c)%Qc) as [_|Hn];
        intros Hs; inversion Hs; subst.
      apply inv_clock; [exact Hinv|]. rewrite Hc. simpl. now apply Qcnot_lt_le.
    + intros Hs; inversion Hs; subst. apply inv_clock; [exact Hinv|].
      now rewrite Hc.
  - destruct (clock s) as [c|] eqn:Hc; [|discriminate].
    unfold Qclt_bool.
    destruct (bool_decide_reflect (sum_list steps < ndays 0)%Qc) as [_|Hn];
      intros Hs; inversion Hs; subst.
    apply inv_clock; [exact Hinv|]. rewrite Hc. simpl.
    apply Qcnot_lt_le in Hn. apply Qcle_minus_iff.
    replace (c + sum_list steps + - c)%Qc with (sum_list steps) by ring. exact Hn.
  - intros Hs; inversion Hs; subst.
    destruct Hinv as (H1 & H2 & H3 & H4). unfold state_inv, set_welspecs; simpl.
    split; [exact H1|]. split; [exact H2|]. split; [exact H3|].
    intros w0 loc Hl. destruct (decide (w = w0)) as [<-|Hne].
    + rewrite lookup_insert_eq in Hl. injection Hl as <-. exact Hr.
    + rewrite lookup_insert_ne in Hl by exact Hne. now apply (H4 w0).
  - destruct (resolve pos (welspecs s) (cd_well c) (cd_i c) (cd_j c))
      as [e|[i j]] eqn:Hres; intros Hs; inversion Hs; subst.
    apply inv_append; [exact Hinv|].
    destruct Hinv as (_ & _ & _ & Hreg).
    destruct (resolve_nonzero _ _ _ _ _ _ _ Hreg Hres) as [Hi Hj].
    apply List.Forall_forall. intros x Hx.
    destruct (unroll_fields _ _ _ Hx) as (_ & HI & HJ & _ & _ & HD & _ & HK).
    simpl in *. unfold row_ok. rewrite HI, HJ, HD.
    split; [reflexivity|]. split; [now apply HK|]. tauto.
  - unfold apply_status_change. destruct (_ || _); intros Hs; inversion Hs; subst.
    apply inv_append; [exact Hinv|].
    destruct Hinv as (_ & _ & Hok & _).
    apply List.Forall_forall. intros x Hx.
    apply in_flat_map in Hx as (w & _ & Hx).
    apply in_map_iff in Hx as (y & <- & Hy).
    apply live_rows_incl in Hy as [Hy _].
    rewrite List.Forall_forall in Hok. specialize (Hok y Hy).
    split; [reflexivity|]. exact Hok.
Qed.

Lemma run_inv (rs : list DeckRecord) :
  forall pos s0 s,
  Forall welspecs_nonzero rs -> state_inv s0 ->
  run default_config pos s0 rs = Continue s -> state_inv s.
Proof.
  induction rs as [|r rs IH]; intros pos s0 s Hrs Hinv; simpl.
  - intros H; now inversion H; subst.
  - inversion Hrs as [|? ? Hr Hrs']; subst.
    destruct (step default_config pos s0 r) as [s1| |] eqn:Hs; try discriminate.
    apply IH; [exact Hrs'|]. exact (step_inv _ _ _ _ Hr Hinv Hs).
Qed.

Lemma init_inv : state_inv init_state.
Proof.
  unfold state_inv; simpl. split; [constructor|]. split; [constructor|].
  split; [constructor|]. intros w loc H. discriminate.
Qed.

(** Deduplication keeps a sublist, without repeated keys. *)
Lemma dedup_last_sorted {A K} `{EqDecision K} (key : A -> K) {B} (f : A -> B)
    (R : B -> B -> Prop) (l : list A) :
  StronglySorted R (map f l) -> StronglySorted R (map f (dedup_last key l)).
Proof.
  induction l as [|x l IH]; simpl; intros H; [exact H|].
  inversion H as [|? ? Hs Hf]; subst.
  destruct (existsb _ l); simpl; [now apply IH|].
  constructor; [now apply IH|].
  apply List.Forall_forall. intros b Hb.
  apply in_map_iff in Hb as (y & <- & Hy). apply dedup_last_incl in Hy.
  rewrite List.Forall_forall in Hf. apply Hf. now apply in_map.
Qed.

Lemma dedup_last_nodup {A K} `{EqDecision K} (key : A -> K) (l : list A) :
  List.NoDup (map key (dedup_last key l)).
Proof.
  induction l as [|x l IH]; simpl; [constructor|].
  destruct (existsb (fun y => bool_decide (key y = key x)) l) eqn:E; [exact IH|].
  simpl. constructor; [|exact IH].
  intros Hin. apply in_map_iff in Hin as (y & Hk & Hy). apply dedup_last_incl in Hy.
  assert (existsb (fun y => bool_decide (key y = key x)) l = true) as E'.
  { apply existsb_exists. exists y. split; [exact Hy|]. now apply bool_decide_eq_true. }
  congruence.
Qed.

Lemma dedup_last_id {A K} `{EqDecision K} (key : A -> K) (l : list A) :
  List.NoDup (map key l) -> dedup_last key l = l.
Proof.
  induction l as [|x l IH]; simpl; intros H; [reflexivity|].
  inversion H as [|? ? Hn Hd]; subst.
  destruct (existsb (fun y => bool_decide (key y = key x)) l) eqn:E.
  - exfalso. apply existsb_exists in E as (y & Hy & Hk).
    apply bool_decide_eq_true in Hk. apply Hn. rewrite <- Hk. now apply in_map.
  - f_equal. now apply IH.
Qed.

Lemma fill_none (l : list CompletionRow) : map (fill_start_date None) l = l.
Proof.
  induction l as [|[] l IH]; simpl; [reflexivity|].
  rewrite IH. unfold fill_start_date; simpl. destruct DATE0; reflexivity.
Qed.

Definition groups_ok (gs : list (option SimDate * list CompletionRow)) : Prop :=
  StronglySorted date_lt (map fst gs) /\
  Forall (fun g => Forall (fun x => DATE x = fst g) (snd g)) gs.

Lemma add_to_groups_spec (r : CompletionRow)
    (gs : list (option SimDate * list CompletionRow)) :
  groups_ok gs -> Forall (fun g => date_le (fst g) (DATE r)) gs ->
  groups_ok (add_to_groups r gs) /\
  concat (map snd (add_to_groups r gs)) = concat (map snd gs) ++ [r] /\
  (forall g, In g (add_to_groups r gs) ->
     fst g = DATE r \/ exists g0, In g0 gs /\ fst g = fst g0).
Proof.
  induction gs as [|[d rs] gs IH]; intros [Hs Hf] Hle; simpl.
  - split; [|split; [reflexivity|]].
    + split; simpl; repeat constructor.
    + intros g [<-|[]]. now left.
  - inversion Hs as [|? ? Hs' Hhd]; subst.
    inversion Hf as [|? ? Hf1 Hf']; subst.
    inversion Hle as [|? ? Hle1 Hle']; subst. simpl in Hle1, Hf1.
    unfold date_eqb. destruct (bool_decide_reflect (d = DATE r)) as [E|E].
    + destruct gs as [|g' gs'].
      * split; [|split].
        -- split; simpl; [repeat constructor|]. constructor; [|constructor].
           apply Forall_app. split; [exact Hf1|]. constructor; [now rewrite E|constructor].
        -- simpl. now rewrite !app_nil_r.
        -- intros g [<-|[]]. simpl. now left.
      * exfalso. inversion Hhd as [|? ? Hlt _].
        inversion Hle' as [|? ? Hle2 _].
        rewrite <- E in Hle2. exact (date_lt_le_false _ _ Hlt Hle2).
    + destruct (IH (conj Hs' Hf') Hle') as ([Hs2 Hf2] & Hc & Hm).
      split; [|split].
      * split; [|constructor; [exact Hf1 | exact Hf2]].
        simpl. constructor; [exact Hs2|].
        apply List.Forall_forall. intros d' Hd'.
        apply in_map_iff in Hd' as (g & <- & Hg).
        destruct (Hm g Hg) as [Hg'|(g0 & Hg0 & Hg')]; rewrite Hg'.
        -- now apply date_le_lt.
        -- rewrite List.Forall_forall in Hhd. apply Hhd. now apply in_map.
      * simpl. rewrite Hc. now rewrite app_assoc.
      * intros g [<-|Hg]; [right; exists (d, rs); simpl; auto|].
        destruct (Hm g Hg) as [H|(g0 & H1 & H2)]; [now left|].
        right. exists g0. simpl. auto.
Qed.

Lemma date_groups_fold (rows : list CompletionRow) :
  forall gs,
  StronglySorted date_le (map DATE rows) -> groups_ok gs ->
  (forall g, In g gs -> Forall (fun x => date_le (fst g) (DATE x)) rows) ->
  groups_ok (fold_left (fun gs r => add_to_groups r gs) rows gs) /\
  concat (map snd (fold_left (fun gs r => add_to_groups r gs) rows gs)) =
    concat (map snd gs) ++ rows.
Proof.
  induction rows as [|r rows IH]; intros gs Hs Hg Hle; simpl.
  - now rewrite app_nil_r.
  - inversion Hs as [|? ? Hs' Hhd]; subst.
    assert (Hr : Forall (fun g => date_le (fst g) (DATE r)) gs).
    { apply List.Forall_forall. intros g Hin. specialize (Hle g Hin).
      now inversion Hle. }
    destruct (add_to_groups_spec r gs Hg Hr) as (Hg2 & Hc & Hm).
    destruct (IH _ Hs' Hg2) as [Hok Hc2].
    + intros g Hin. apply List.Forall_forall. intros x Hx.
      destruct (Hm g Hin) as [E|(g0 & Hg0 & E)]; rewrite E.
      * rewrite List.Forall_forall in Hhd. apply Hhd. now apply in_map.
      * specialize (Hle g0 Hg0). inversion Hle as [|? ? _ Hle']; subst.
        rewrite List.Forall_forall in Hle'. now apply Hle'.
    + split; [exact Hok|]. rewrite Hc2, Hc. now rewrite <- app_assoc.
Qed.

Lemma date_groups_sorted
    (rows : list CompletionRow) :
  StronglySorted date_le (map DATE rows) ->
  groups_ok (date_groups rows) /\ concat (map snd (date_groups rows)) = rows.
Proof.
  intros Hs. unfold date_groups.
  destruct (date_groups_fold rows [] Hs) as [H1 H2].
  - split; constructor.
  - intros g [].
  - split; [exact H1 | exact H2].
Qed.

Lemma row_record_step (pos : nat)
    (s : State) (x : CompletionRow) :
  DATE x = clock s -> row_ok x ->
  step default_config pos s (row_record x) = Continue (set_store s (store s ++ [x])).
Proof.
  destruct x as [w i j k1 k2 st rest d]; unfold row_ok; simpl.
  intros Hd (Hk & Hi & Hj).
  assert (Hres : resolve pos (welspecs s) w (Lit i) (Lit j) = inr (i, j)).
  { unfold resolve, resolve_field; simpl.
    rewrite (proj2 (Z.eqb_neq i 0) Hi), (proj2 (Z.eqb_neq j 0) Hj). reflexivity. }
  unfold step, row_record; simpl. rewrite Hres.
  subst k2 d. unfold unroll, expand; simpl. rewrite Z.min_id, Z.max_id, Z.sub_diag. reflexivity.
Qed.

Lemma run_rows (rows : list CompletionRow) :
  forall pos s,
  Forall (fun x => DATE x = clock s /\ row_ok x) rows ->
  exists s', run default_config pos s (map row_record rows) = Continue s' /\
             clock s' = clock s /\ store s' = store s ++ rows.
Proof.
  induction rows as [|x rows IH]; intros pos s H; cbn [map run].
  - exists s. now rewrite app_nil_r.
  - inversion H as [|? ? [Hd Hok] H']; subst.
    rewrite (row_record_step pos s x Hd Hok).
    destruct (IH (S pos) (set_store s (store s ++ [x])) H') as (s' & Hr & Hc & Hst).
    exists s'. split; [exact Hr|]. simpl in Hc, Hst. split; [exact Hc|].
    rewrite Hst, <- app_assoc. reflexivity.
Qed.

Definition prev_clock (prev : option (option SimDate)) : option SimDate :=
  match prev with None => None | Some p => p end.

Lemma run_time_control (contiguous : SimDate -> SimDate -> bool)
    (prev : option (option SimDate)) (d : option SimDate) (pos : nat) (s : State) :
  clock s = prev_clock prev ->
  (match prev with None => True | Some p => date_lt p d end) ->
  exists s1, run default_config pos s (time_control contiguous prev d) = Continue s1 /\
             clock s1 = d /\ store s1 = store s.
Proof.
  intros Hc Hlt. destruct d as [d|].
  - destruct prev as [[p|]|]; simpl in Hc, Hlt; unfold time_control.
    + destruct (contiguous p d); cbn [run]; unfold step; rewrite Hc.
      * assert (E : sum_list [(d - p)%Qc] = (d + - p)%Qc)
          by (unfold sum_list; cbn [fold_right]; change (ndays 0) with 0%Qc;
              now rewrite Qcplus_0_r).
        unfold Qclt_bool. rewrite E.
        destruct (bool_decide_reflect (d + - p < ndays 0)%Qc) as [Hn|_].
        { exfalso. apply Qclt_minus_iff in Hlt.
          exact (Qclt_not_le _ _ Hn (Qclt_le_weak _ _ Hlt)). }
        eexists; split; [reflexivity|]. simpl. split; [|reflexivity].
        f_equal. ring.
      * unfold Qclt_bool. destruct (bool_decide_reflect (d < p)%Qc) as [Hn|_].
        { exfalso. exact (Qclt_not_le _ _ Hn (Qclt_le_weak _ _ Hlt)). }
        eexists; split; [reflexivity|]. simpl. split; reflexivity.
    + cbn [run]; unfold step; rewrite Hc.
      eexists; split; [reflexivity|]. simpl. split; reflexivity.
    + cbn [run]; unfold step; rewrite Hc.
      eexists; split; [reflexivity|]. simpl. split; reflexivity.
  - exists s. split; [reflexivity|]. split; [|reflexivity].
    destruct prev as [[p|]|]; simpl in *; [tauto|tauto|exact Hc].
Qed.

Lemma run_emit (contiguous : SimDate -> SimDate -> bool)
    (gs : list (option SimDate * list CompletionRow)) :
  forall prev pos s,
  StronglySorted date_lt (map fst gs) ->
  Forall (fun g => Forall (fun x => DATE x = fst g /\ row_ok x) (snd g)) gs ->
  clock s = prev_clock prev ->
  (match prev with None => True | Some p => Forall (fun g => date_lt p (fst g)) gs end) ->
  exists s', run default_config pos s (emit_groups contiguous prev gs) = Continue s' /\
             store s' = store s ++ concat (map snd gs).
Proof.
  induction gs as [|[d rows] gs IH]; intros prev pos s Hs Hf Hc Hp; simpl.
  - exists s. now rewrite app_nil_r.
  - inversion Hs as [|? ? Hs' Hhd]; subst.
    inversion Hf as [|? ? Hf1 Hf']; subst. simpl in Hf1.
    destruct (run_time_control contiguous prev d pos s Hc) as (s1 & R1 & C1 & S1).
    { destruct prev as [p|]; [|exact I]. now inversion Hp. }
    rewrite run_app, R1, run_app.
    destruct (run_rows rows (pos + length (time_control contiguous prev d)) s1)
      as (s2 & R2 & C2 & S2).
    { apply List.Forall_forall. intros x Hx. rewrite List.Forall_forall in Hf1.
      rewrite C1. apply Hf1, Hx. }
    rewrite R2.
    destruct (IH (Some d) (pos + length (time_control contiguous prev d)
                + length (map row_record rows))%nat s2 Hs' Hf')
      as (s3 & R3 & S3).
    + simpl. congruence.
    + apply List.Forall_forall. intros g Hg. rewrite List.Forall_forall in Hhd.
      apply Hhd. now apply in_map.
    + exists s3. split; [exact R3|]. rewrite S3, S2, S1. now rewrite app_assoc.
Qed.

Lemma groups_rows_ok (gs : list (option SimDate * list CompletionRow)) :
  Forall (fun g => Forall (fun x => DATE x = fst g) (snd g)) gs ->
  Forall row_ok (concat (map snd gs)) ->
  Forall (fun g => Forall (fun x => DATE x = fst g /\ row_ok x) (snd g)) gs.
Proof.
  intros Hf Hok. apply List.Forall_forall. intros g Hg.
  apply List.Forall_forall. intros x Hx. split.
  - rewrite List.Forall_forall in Hf. specialize (Hf g Hg).
    rewrite List.Forall_forall in Hf. now apply Hf.
  - rewrite List.Forall_forall in Hok. apply Hok.
    apply in_concat. exists (snd g). split; [now apply in_map | exact Hx].
Qed.

(** The table a conversion yields, read from its final state. *)
Lemma compdat_df_finalize (s : State) (rows : list CompletionRow) :
  compdat_df (Tables (finalize default_config s)) = Some rows ->
  rows = dedup_last row_id (store s) /\ rows <> [].
Proof.
  unfold finalize; simpl. rewrite fill_none.
  destruct (dedup_last row_id (store s)) as [|x l]; simpl; [discriminate|].
  intros H; inversion H; subst. split; [reflexivity | discriminate].
Qed.

Lemma welspecs_nonzero_all (deck : list DeckRecord) :
  (forall w hi hj, In (WELSPECS w hi hj) deck -> hi <> 0 /\ hj <> 0) ->
  Forall welspecs_nonzero deck.
Proof.
  intros H. apply List.Forall_forall. intros [] Hin; simpl; try exact I.
  now apply (H well).
Qed.

(** The record stream of test_applywelopen_stringdeck. *)
Definition applywelopen_deck : list DeckRecord :=
  [DATES (date_of 2001 5 1);
   COMPDAT (compdat_line "OP1" (Lit 33) (Lit 110) 31 31 "OPEN");
   WELOPEN "OP1" "SHUT";
   TSTEP [ndays 1];
   COMPDAT (compdat_line "OP2" (Lit 66) (Lit 110) 31 31 "OPEN");
   WELOPEN "OP1" "OPEN";
   TSTEP [ndays 2; ndays 3];
   WELOPEN "OP1" "POPN";
   WELOPEN "OP2" "SHUT"].

Definition table_row (w : string) (i j k : Z) (st : string) (d : SimDate)
    : CompletionRow :=
  {| WELL := w; I_ := i; J_ := j; K1 := k; K2 := k; OP_SH := st; REST := [];
     DATE := Some d |}.

(** Its COMPDAT table. *)
Definition applywelopen_rows : list CompletionRow :=
  [table_row "OP1" 33 110 31 "SHUT" (date_of 2001 5 1);
   table_row "OP2" 66 110 31 "OPEN" (date_of 2001 5 2);
   table_row "OP1" 33 110 31 "OPEN" (date_of 2001 5 2);
   table_row "OP1" 33 110 31 "OPEN" (date_of 2001 5 7);
   table_row "OP2" 66 110 31 "SHUT" (date_of 2001 5 7)].

(** One contiguity criterion: the later date at most one day after the
    earlier. *)
Definition within_a_day (p d : SimDate) : bool := bool_decide (d <= p + ndays 1)%Qc.

(** A stream starting at a time of day (as in test_df2ecl_compdat) and
    advanced by fractional TSTEPs. *)
Definition roundtrip_deck : list DeckRecord :=
  [DATES (datetime_of 2001 1 1 3 3 3);
   COMPDAT (compdat_line "OP1" (Lit 33) (Lit 110) 31 31 "OPEN");
   TSTEP [qdays 1 2];
   WELOPEN "OP1" "SHUT";
   TSTEP [qdays 1 4; qdays 3 4];
   COMPDAT (compdat_line "OP2" (Lit 66) (Lit 110) 30 31 "OPEN");
   WELOPEN "OP1" "POPN";
   TSTEP [ndays 5];
   WELOPEN "OP2" "SHUT"].

(** Its COMPDAT table: the TSTEPs put the later rows at 15:03:03. *)
Definition roundtrip_rows : list CompletionRow :=
  [table_row "OP1" 33 110 31 "OPEN" (datetime_of 2001 1 1 3 3 3);
   table_row "OP1" 33 110 31 "SHUT" (datetime_of 2001 1 1 15 3 3);
   table_row "OP2" 66 110 30 "OPEN" (datetime_of 2001 1 2 15 3 3);
   table_row "OP2" 66 110 31 "OPEN" (datetime_of 2001 1 2 15 3 3);
   table_row "OP1" 33 110 31 "OPEN" (datetime_of 2001 1 2 15 3 3);
   table_row "OP2" 66 110 30 "SHUT" (datetime_of 2001 1 7 15 3 3);
   table_row "OP2" 66 110 31 "SHUT" (datetime_of 2001 1 7 15 3 3)].

(** A well whose WELSPECS puts its head at I = 0. *)
Definition zero_location_deck : list DeckRecord :=
  [WELSPECS "OP1" 0 30;
   COMPDAT (compdat_line "OP1" Defaulted (Lit 5) 1 1 "OPEN")].

Definition zero_location_rows : list CompletionRow :=
  [{| WELL := "OP1"; I_ := 0; J_ := 5; K1 := 1; K2 := 1; OP_SH := "OPEN";
      REST := []; DATE := None |}].

(** Claim C5 (as amended). For a record stream none of whose WELSPECS
    records puts a well head at a location index 0, if [deck2dfs] yields
    a COMPDAT table, then serializing that table with [df2ecl] (whatever
    the contiguity criterion between dates) and converting the result
    again yields the same table, row for row: same well, I, J, K1, K2,
    status, extra columns and date, time of day and fractions of a day
    included. *)
Theorem compdat_roundtrip (contiguous : SimDate -> SimDate -> bool)
    (deck : list DeckRecord) (rows : list CompletionRow) :
  (forall w hi hj, In (WELSPECS w hi hj) deck -> hi <> 0 /\ hj <> 0) ->
  compdat_df (deck2dfs default_config deck) = Some rows ->
  compdat_df (deck2dfs default_config (df2ecl contiguous rows)) = Some rows.
Proof.
  intros Hw. apply welspecs_nonzero_all in Hw.
  unfold deck2dfs at 1.
  destruct (run default_config 0 init_state deck) as [s| |] eqn:Hrun;
    try discriminate.
  intros Hdf. apply compdat_df_finalize in Hdf as [Hrows Hne].
  destruct (run_inv deck 0 init_state s Hw init_inv Hrun) as (Hsort & _ & Hok & _).
  assert (Hs : StronglySorted date_le (map DATE rows))
    by (rewrite Hrows; now apply dedup_last_sorted).
  assert (Hok' : Forall row_ok rows).
  { rewrite Hrows. apply List.Forall_forall. intros x Hx.
    apply dedup_last_incl in Hx. rewrite List.Forall_forall in Hok. now apply Hok. }
  assert (Hnd : List.NoDup (map row_id rows))
    by (rewrite Hrows; apply dedup_last_nodup).
  destruct (date_groups_sorted rows Hs) as [[Hgs Hgf] Hcat].
  destruct (run_emit contiguous (date_groups rows) None 0 init_state Hgs)
    as (s' & Hr' & Hst').
  - apply groups_rows_ok; [exact Hgf | now rewrite Hcat].
  - reflexivity.
  - exact I.
  - unfold deck2dfs, df2ecl. rewrite Hr'. unfold finalize.
    rewrite Hst', Hcat. simpl. rewrite dedup_last_id by exact Hnd.
    rewrite fill_none. destruct rows as [|x l]; [congruence|]. reflexivity.
Qed.

(** The round trip of [roundtrip_deck]: its table has dates at 03:03:03
    and half and quarter days later; [within_a_day] serializes two of its
    date changes as fractional TSTEPs and one as a DATES record. *)
Lemma compdat_roundtrip_witness :
  (forall w hi hj, In (WELSPECS w hi hj) roundtrip_deck -> hi <> 0 /\ hj <> 0) /\
  compdat_df (deck2dfs default_config roundtrip_deck) = Some roundtrip_rows /\
  df2ecl within_a_day roundtrip_rows =
    [DATES (datetime_of 2001 1 1 3 3 3)] ++ map row_record (firstn 1 roundtrip_rows) ++
    [TSTEP [qdays 1 2]] ++ map row_record (firstn 1 (skipn 1 roundtrip_rows)) ++
    [TSTEP [ndays 1]] ++ map row_record (firstn 3 (skipn 2 roundtrip_rows)) ++
    [DATES (datetime_of 2001 1 7 15 3 3)] ++ map row_record (skipn 5 roundtrip_rows) /\
  compdat_df (deck2dfs default_config (df2ecl within_a_day roundtrip_rows))
    = Some roundtrip_rows.
Proof.
  assert (Hw : forall w hi hj, In (WELSPECS w hi hj) roundtrip_deck ->
                 hi <> 0 /\ hj <> 0).
  { intros w hi hj H. simpl in H.
    repeat (destruct H as [H|H]; [discriminate|]). contradiction. }
  assert (Hd : compdat_df (deck2dfs default_config roundtrip_deck)
                 = Some roundtrip_rows) by (apply decided; vm_compute; reflexivity).
  split; [exact Hw|]. split; [exact Hd|]. split; [apply decided; vm_compute; reflexivity|].
  apply (compdat_roundtrip within_a_day roundtrip_deck roundtrip_rows Hw Hd).
Defined.

(** The serialized table of [zero_location_deck] does not read back:
    its row has I = 0, which the second conversion takes as defaulted,
    and no WELSPECS is emitted for the well. *)
Lemma roundtrip_zero_location :
  compdat_df (deck2dfs default_config zero_location_deck) = Some zero_location_rows /\
  deck2dfs default_config (df2ecl within_a_day zero_location_rows)
    = Raised (MissingDefaultError "OP1" "I" 0) /\
  python_exception (MissingDefaultError "OP1" "I" 0)
    = ValueError "WELSPECS must be provided when I is defaulted in COMPDAT, well OP1".
Proof. vm_compute. repeat split; reflexivity. Qed.

(* ------------------------------------------------------------------ *)
(** ** Status propagation by WELOPEN *)

(** A row kept by [dedup_last] has no later row with its key. *)
Lemma dedup_last_last {A K} `{EqDecision K} (key : A -> K) (l : list A) (x : A) :
  In x (dedup_last key l) ->
  exists l1 l2, l = l1 ++ x :: l2 /\ Forall (fun y => key y <> key x) l2.
Proof.
  induction l as [|y l IH]; simpl; [tauto|].
  destruct (existsb (fun z => bool_decide (key z = key y)) l) eqn:E.
  - intros H. destruct (IH H) as (l1 & l2 & -> & F).
    exists (y :: l1), l2. split; [reflexivity | exact F].
  - intros [<-|H].
    + exists [], l. split; [reflexivity|].
      apply List.Forall_forall. intros z Hz Hk.
      assert (existsb (fun z => bool_decide (key z = key y)) l = true) as E'.
      { apply existsb_exists. exists z. split; [exact Hz|].
        now apply bool_decide_eq_true. }
      congruence.
    + destruct (IH H) as (l1 & l2 & -> & F).
      exists (y :: l1), l2. split; [reflexivity | exact F].
Qed.

(** Every key of the list is the key of a kept row. *)
Lemma dedup_last_cover {A K} `{EqDecision K} (key : A -> K) (l : list A) :
  forall y, In y l -> exists x, In x (dedup_last key l) /\ key x = key y.
Proof.
  induction l as [|z l IH]; simpl; [tauto|]. intros y Hy.
  destruct (existsb (fun u => bool_decide (key u = key z)) l) eqn:E.
  - destruct Hy as [<-|Hy]; [|now apply IH].
    apply existsb_exists in E as (u & Hu & Hk). apply bool_decide_eq_true in Hk.
    destruct (IH u Hu) as (x & Hx & Hkx). exists x. split; [exact Hx | congruence].
  - destruct Hy as [<-|Hy]; [exists z; split; [left|]; reflexivity|].
    destruct (IH y Hy) as (x & Hx & Hk). exists x. split; [right; exact Hx | exact Hk].
Qed.

Lemma filter_split {A} (p : A -> bool) (l l1 : list A) (x : A) (l2 : list A) :
  List.filter p l = l1 ++ x :: l2 ->
  exists m1 m2, l = m1 ++ x :: m2 /\ List.filter p m2 = l2.
Proof.
  revert l1. induction l as [|y l IH]; intros l1 H; simpl in H.
  - destruct l1; discriminate.
  - destruct (p y) eqn:Py.
    + destruct l1 as [|z l1]; simpl in H; injection H as H1 H2.
      * subst. exists [], l. split; reflexivity.
      * destruct (IH l1 H2) as (m1 & m2 & -> & F).
        exists (y :: m1), m2. split; [reflexivity | exact F].
    + destruct (IH l1 H) as (m1 & m2 & -> & F).
      exists (y :: m1), m2. split; [reflexivity | exact F].
Qed.

Lemma uniq_first_nodup {A} `{EqDecision A} (l : list A) :
  forall seen, List.NoDup (uniq_first seen l) /\
               forall x, In x (uniq_first seen l) -> ~ x ∈ seen.
Proof.
  induction l as [|y l IH]; intros seen; simpl; [split; [constructor | tauto]|].
  case_bool_decide as Hy; [exact (IH seen)|].
  destruct (IH (y :: seen)) as [Hn Hs]. split.
  - constructor; [|exact Hn]. intros Hin. apply (Hs y Hin). apply list_elem_of_here.
  - intros x [<-|Hx]; [exact Hy|]. intros Hxs. apply (Hs x Hx).
    now apply list_elem_of_further.
Qed.

Lemma matched_wells_nodup (s : State) (pat : string) :
  List.NoDup (matched_wells s pat).
Proof. apply List.NoDup_filter, uniq_first_nodup. Qed.

(** Blocks of rows, one per well of a list without repetitions, each
    block without repeated connection: no (well, connection) twice. *)
Lemma nodup_blocks (ws : list string) (f : string -> list CompletionRow) :
  List.NoDup ws ->
  (forall w, In w ws -> List.NoDup (map conn_id (f w)) /\ Forall (fun x => WELL x = w) (f w)) ->
  List.NoDup (map (fun x => (WELL x, conn_id x)) (flat_map f ws)).
Proof.
  induction ws as [|w ws IH]; intros Hn Hf; simpl; [constructor|].
  inversion Hn as [|? ? Hw Hn']; subst. rewrite map_app.
  destruct (Hf w (or_introl eq_refl)) as [Hd Hall].
  apply List.NoDup_app.
  - apply (NoDup_map_inv snd). rewrite map_map. exact Hd.
  - apply IH; [exact Hn'|]. intros w' Hw'. apply Hf. now right.
  - intros [a c] Ha Hb.
    apply in_map_iff in Ha as (x & Ex & Hx). apply in_map_iff in Hb as (y & Ey & Hy).
    injection Ex as Ex _. injection Ey as Ey _.
    apply in_flat_map in Hy as (w' & Hw' & Hy).
    destruct (Hf w' (or_intror Hw')) as [_ Hall'].
    rewrite List.Forall_forall in Hall, Hall'.
    apply Hall in Hx. apply Hall' in Hy. apply Hw. congruence.
Qed.

Lemma live_rows_nodup (w : string) (st : list CompletionRow) :
  List.NoDup (map conn_id (live_rows w st)).
Proof. apply dedup_last_nodup. Qed.

(** A live row is the last row of its well and connection in the store. *)
Lemma live_rows_last (w : string) (st : list CompletionRow) (x : CompletionRow) :
  In x (live_rows w st) ->
  exists l1 l2, st = l1 ++ x :: l2 /\
    Forall (fun y => WELL y = w -> conn_id y <> conn_id x) l2.
Proof.
  unfold live_rows. intros H.
  destruct (dedup_last_last conn_id _ x H) as (k1 & k2 & Hk & F).
  destruct (filter_split _ _ _ _ _ Hk) as (m1 & m2 & -> & Hm).
  exists m1, m2. split; [reflexivity|].
  apply List.Forall_forall. intros y Hy Hw.
  rewrite List.Forall_forall in F. apply F. rewrite <- Hm.
  apply filter_In. split; [exact Hy|]. now apply String.eqb_eq.
Qed.

(** Every connection of a well is the connection of one of its live rows. *)
Lemma live_rows_cover (w : string) (st : list CompletionRow) (r : CompletionRow) :
  In r st -> WELL r = w -> exists x, In x (live_rows w st) /\ conn_id x = conn_id r.
Proof.
  intros Hr Hw. apply (dedup_last_cover conn_id _ r).
  apply filter_In. split; [exact Hr|]. now apply String.eqb_eq.
Qed.

(** The state before the first WELOPEN of test_applywelopen_stringdeck
    touching two wells, as it would be with a pattern. *)
Definition welopen_before : State :=
  {| clock := Some (date_of 2001 5 2); welspecs := ∅;
     store := [table_row "OP1" 33 110 31 "OPEN" (date_of 2001 5 1);
               table_row "OP1" 33 110 31 "SHUT" (date_of 2001 5 1);
               table_row "OP2" 66 110 31 "OPEN" (date_of 2001 5 2)] |}.

(** Claim C1. A WELOPEN record that the conversion accepts keeps the clock
    and the well registry, and appends to the store one new row per live
    connection (well and I, J, K1, K2) of every matched well, each matched
    well having at least one: the new row copies the well, I, J, K1, K2
    and the other columns of the last row of that connection in the
    store, and has the status the WELOPEN state gives (POPN opens) and the
    current date. For the stream of test_applywelopen_stringdeck the
    COMPDAT table has 5 rows, 2 distinct statuses and 3 distinct dates. *)
Theorem welopen_propagation :
  (forall (cfg : Config) (pos : nat) (s s' : State) (pat st : string),
   step cfg pos s (WELOPEN pat st) = Continue s' ->
   clock s' = clock s /\ welspecs s' = welspecs s /\
   exists new, store s' = store s ++ new /\
     List.NoDup (map (fun x => (WELL x, conn_id x)) new) /\
     (forall x, In x new ->
        In (WELL x) (matched_wells s pat) /\
        OP_SH x = welopen_connection_state st /\ DATE x = clock s /\
        exists l1 r l2, store s = l1 ++ r :: l2 /\
          WELL r = WELL x /\ conn_id r = conn_id x /\ REST r = REST x /\
          Forall (fun y => WELL y = WELL x -> conn_id y <> conn_id x) l2) /\
     (forall w, In w (matched_wells s pat) ->
        (exists r, In r (store s) /\ WELL r = w) /\
        forall r, In r (store s) -> WELL r = w ->
          exists x, In x new /\ WELL x = w /\ conn_id x = conn_id r)) /\
  compdat_df (deck2dfs default_config applywelopen_deck) = Some applywelopen_rows /\
  length applywelopen_rows = 5%nat /\
  length (uniq_first [] (map OP_SH applywelopen_rows)) = 2%nat /\
  length (uniq_first [] (map DATE applywelopen_rows)) = 3%nat.
Proof.
  split.
  - intros cfg pos s s' pat st Hs. simpl in Hs. unfold apply_status_change in Hs.
    destruct (match matched_wells s pat with [] => true | _ => false end
              || existsb (fun w => match live_rows w (store s) with
                                   | [] => true | _ => false end)
                         (matched_wells s pat)) eqn:Hc; [discriminate|].
    injection Hs as <-. apply orb_false_iff in Hc as [_ Hlive].
    split; [reflexivity|]. split; [reflexivity|].
    eexists. split; [reflexivity|]. split; [|split].
    + apply nodup_blocks; [apply matched_wells_nodup|].
      intros w _. split.
      * rewrite map_map. apply live_rows_nodup.
      * apply List.Forall_forall. intros x Hx.
        apply in_map_iff in Hx as (r & <- & Hr). now apply live_rows_incl in Hr.
    + intros x Hx. apply in_flat_map in Hx as (w & Hw & Hx).
      apply in_map_iff in Hx as (r & <- & Hr).
      pose proof (live_rows_incl _ _ _ Hr) as [_ Hrw].
      destruct (live_rows_last _ _ _ Hr) as (l1 & l2 & Hst & F).
      cbn [WELL OP_SH DATE reopen]. rewrite Hrw.
      split; [exact Hw|]. split; [reflexivity|]. split; [reflexivity|].
      exists l1, r, l2. split; [exact Hst|]. split; [exact Hrw|].
      split; [reflexivity|]. split; [reflexivity|]. exact F.
    + intros w Hw. split.
      * assert (Hne : live_rows w (store s) <> []).
        { intros E.
          enough (T : existsb (fun w => match live_rows w (store s) with
                                         | [] => true | _ => false end)
                              (matched_wells s pat) = true) by congruence.
          apply existsb_exists. exists w. split; [exact Hw|]. now rewrite E. }
        destruct (live_rows w (store s)) as [|x xs] eqn:E; [contradiction|].
        exists x. apply live_rows_incl. rewrite E. now left.
      * intros r Hr Hrw.
        destruct (live_rows_cover w _ r Hr Hrw) as (x & Hx & Hk).
        exists (reopen (welopen_connection_state st) (clock s) x).
        split; [|split].
        -- apply in_flat_map. exists w. split; [exact Hw|]. now apply in_map.
        -- cbn [reopen WELL]. now apply live_rows_incl in Hx.
        -- exact Hk.
  - split; [apply decided; vm_compute; reflexivity|].
    vm_compute. repeat split; reflexivity.
Qed.

Lemma welopen_propagation_witness :
  exists s', step default_config 7%nat welopen_before (WELOPEN "OP*" "POPN") = Continue s' /\
    clock s' = clock welopen_before /\ welspecs s' = welspecs welopen_before /\
    exists new, store s' = store welopen_before ++ new /\ length new = 2%nat /\
      Forall (fun x => OP_SH x = "OPEN") new.
Proof.
  eexists. split; [reflexivity|].
  destruct (proj1 welopen_propagation default_config 7%nat welopen_before _ "OP*" "POPN"
              eq_refl) as (Hc & Hw & new & Hst & _ & Hnew & _).
  split; [exact Hc|]. split; [exact Hw|]. exists new. split; [exact Hst|]. split.
  - apply (f_equal (@length _)) in Hst. rewrite length_app in Hst.
    match type of Hst with
    | length ?l = _ => assert (L : length l = 5%nat) by (vm_compute; reflexivity)
    end.
    rewrite L in Hst. simpl in Hst. lia.
  - apply List.Forall_forall. intros x Hx. now destruct (Hnew x Hx) as (_ & -> & _).
Defined.

(* ------------------------------------------------------------------ *)
(** ** Command line front end: [ecl2df/ecl2csv.py] *)

(** A subcommand of [ecl2csv]: the name given to [add_parser] and the
    handler its [set_defaults(func=...)] installs, as module and function
    name. *)
Record Subcommand := {
  sub_name : string;
  sub_module : string;
  sub_func : string
}.

(** [get_parser]: the subcommands it adds, in order. *)
Definition ecl2csv_subcommands : list Subcommand :=
  [{| sub_name := "grid"; sub_module := "grid"; sub_func := "grid2df_main" |};
   {| sub_name := "summary"; sub_module := "summary"; sub_func := "summary2df_main" |};
   {| sub_name := "nnc"; sub_module := "nnc"; sub_func := "nnc2df_main" |};
   {| sub_name := "faults"; sub_module := "faults"; sub_func := "faults2df_main" |};
   {| sub_name := "trans"; sub_module := "trans"; sub_func := "trans2df_main" |};
   {| sub_name := "pillars"; sub_module := "pillars"; sub_func := "pillarstats_main" |};
   {| sub_name := "rft"; sub_module := "rft"; sub_func := "rft2df_main" |};
   {| sub_name := "satfunc"; sub_module := "satfunc"; sub_func := "satfunc2df_main" |};
   {| sub_name := "compdat"; sub_module := "compdat"; sub_func := "compdat2df_main" |};
   {| sub_name := "equil"; sub_module := "equil"; sub_func := "equil2df_main" |};
   {| sub_name := "gruptree"; sub_module := "gruptree"; sub_func := "gruptree2df_main" |};
   {| sub_name := "wcon"; sub_module := "wcon"; sub_func := "wcon2df_main" |}].

(** The name-to-parser map of argparse's subparsers action: each
    [add_parser] stores its parser under its name, a later one replacing
    an earlier one of the same name. *)
Definition name_parser_map (subs : list Subcommand) : gmap string Subcommand :=
  fold_left (fun m sc => <[sub_name sc := sc]> m) subs ∅.

(** An argument that argparse may read as an option string: it starts
    with the prefix character [-]. Any other argument is a positional. *)
Definition starts_with_dash (a : string) : bool :=
  match a with
  | String c _ => Ascii.eqb c "-"%char
  | EmptyString => false
  end.

Section Ecl2csvMain.

(** The attributes of a parsed namespace other than [func]. *)
Variable Namespace : Type.

(** What a subcommand's own parser (set up by the [fill_parser] of its
    module, not part of these sources) makes of the arguments after the
    subcommand name: a namespace and the arguments it did not recognise,
    or an exit (help, usage error). *)
Inductive SubResult :=
| SubOk (ns : Namespace) (extras : list string)
| SubExit (code : Z).

Variable subparser_parse : Subcommand -> list string -> SubResult.

Inductive ParseResult :=
| NoFunc
| WithFunc (module func : string) (ns : Namespace)
| ParseExit (code : Z).

(** argparse's handling of an argument vector whose first argument starts
    with [-] (help, unknown options, [--], negative numbers): left open. *)
Variable parse_leading_dash : list string -> ParseResult.

(** [get_parser().parse_args(argv)]. The subparsers action is not
    required, so an empty vector gives a namespace without [func]. A
    first positional argument selects the subparser by name (an unknown
    name is argparse's "invalid choice" usage error, exit status 2); the
    selected subparser reads all the remaining arguments, its defaults
    set [func], and arguments it left unrecognised are a usage error. *)
Definition ecl2csv_parse_args (argv : list string) : ParseResult :=
  match argv with
  | [] => NoFunc
  | a :: rest =>
      if starts_with_dash a then parse_leading_dash argv
      else
        match name_parser_map ecl2csv_subcommands !! a with
        | None => ParseExit 2
        | Some sc =>
            match subparser_parse sc rest with
            | SubOk ns [] => WithFunc (sub_module sc) (sub_func sc) ns
            | SubOk _ (_ :: _) => ParseExit 2
            | SubExit code => ParseExit code
            end
        end
  end.

Inductive MainOutcome :=
| Called (module func : string) (ns : Namespace)
| SystemExit (code : Z)
| AttributeError (attr : string).

(** [main]: parse the arguments and call [args.func(args)]. *)
Definition ecl2csv_main (argv : list string) : MainOutcome :=
  match ecl2csv_parse_args argv with
  | NoFunc => AttributeError "func"
  | WithFunc m f ns => Called m f ns
  | ParseExit code => SystemExit code
  end.

End Ecl2csvMain.

Arguments SubOk {Namespace}.
Arguments SubExit {Namespace}.
Arguments NoFunc {Namespace}.
Arguments WithFunc {Namespace}.
Arguments ParseExit {Namespace}.
Arguments Called {Namespace}.
Arguments SystemExit {Namespace}.
Arguments AttributeError {Namespace}.
Arguments ecl2csv_parse_args {Namespace}.
Arguments ecl2csv_main {Namespace}.

Lemma name_parser_map_notin (subs : list Subcommand) (a : string) :
  forall m : gmap string Subcommand, ~ In a (map sub_name subs) ->
  fold_left (fun m sc => <[sub_name sc := sc]> m) subs m !! a = m !! a.
Proof.
  induction subs as [|sc subs IH]; intros m Hn; simpl; [reflexivity|].
  simpl in Hn. rewrite IH by tauto.
  apply lookup_insert_ne. intros E. apply Hn. now left.
Qed.

Lemma name_parser_map_in (subs : list Subcommand) (sc : Subcommand) :
  forall m : gmap string Subcommand,
  List.NoDup (map sub_name subs) -> In sc subs ->
  fold_left (fun m sc => <[sub_name sc := sc]> m) subs m !! sub_name sc = Some sc.
Proof.
  induction subs as [|sc0 subs IH]; intros m Hnd Hin; simpl; [destruct Hin|].
  inversion Hnd as [|? ? Hn Hnd']; subst.
  destruct Hin as [<-|Hin].
  - rewrite name_parser_map_notin by exact Hn. apply lookup_insert_eq.
  - now apply IH.
Qed.

Lemma ecl2csv_names_nodup : List.NoDup (map sub_name ecl2csv_subcommands).
Proof.
  simpl. repeat constructor; simpl; intros H;
    repeat (destruct H as [H|H]; [discriminate|]); exact H.
Qed.

Lemma ecl2csv_names_positional (sc : Subcommand) :
  In sc ecl2csv_subcommands -> starts_with_dash (sub_name sc) = false.
Proof.
  simpl. intros H. repeat (destruct H as [<-|H]; [reflexivity|]). destruct H.
Qed.

(** A subparser that accepts every argument, and argparse rejecting a
    leading option: used to exercise the front end. *)
Definition accept_all_subparser (sc : Subcommand) (rest : list string)
    : SubResult (list string) :=
  SubOk rest [].

Definition reject_leading_dash (argv : list string) : ParseResult (list string) :=
  ParseExit 2.

(** [ecl2csv NAME ARGS...] for a registered subcommand NAME hands all of
    ARGS to that subcommand's parser and, when it accepts them without
    leftovers, calls that subcommand's handler (and no other) with the
    namespace; leftover arguments give a usage error (exit status 2), and
    an exit of the subparser is passed on. This relies on the twelve names
    being pairwise distinct. *)
Theorem ecl2csv_main_dispatch {Namespace : Type}
    (subparser_parse : Subcommand -> list string -> SubResult Namespace)
    (parse_leading_dash : list string -> ParseResult Namespace)
    (sc : Subcommand) (rest : list string) :
  In sc ecl2csv_subcommands ->
  ecl2csv_main subparser_parse parse_leading_dash (sub_name sc :: rest) =
  match subparser_parse sc rest with
  | SubOk ns [] => Called (sub_module sc) (sub_func sc) ns
  | SubOk _ (_ :: _) => SystemExit 2
  | SubExit code => SystemExit code
  end.
Proof.
  intros Hin. unfold ecl2csv_main, ecl2csv_parse_args.
  rewrite (ecl2csv_names_positional sc Hin).
  unfold name_parser_map.
  rewrite (name_parser_map_in _ sc ∅ ecl2csv_names_nodup Hin).
  destruct (subparser_parse sc rest) as [ns [|x xs]|code]; reflexivity.
Qed.

Lemma ecl2csv_main_dispatch_witness :
  In {| sub_name := "compdat"; sub_module := "compdat"; sub_func := "compdat2df_main" |}
     ecl2csv_subcommands /\
  ecl2csv_main accept_all_subparser reject_leading_dash
    ("compdat" :: ["-v"; "EIGHTCELLS.DATA"; "-o"; "compdat.csv"]) =
  Called "compdat" "compdat2df_main" ["-v"; "EIGHTCELLS.DATA"; "-o"; "compdat.csv"].
Proof.
  assert (Hin : In {| sub_name := "compdat"; sub_module := "compdat";
                      sub_func := "compdat2df_main" |} ecl2csv_subcommands)
    by (simpl; tauto).
  split; [exact Hin|].
  exact (ecl2csv_main_dispatch accept_all_subparser reject_leading_dash _
           ["-v"; "EIGHTCELLS.DATA"; "-o"; "compdat.csv"] Hin).
Defined.
